(** * A shallow embedding of src/main.js (google_email_scraper.js)

    Text is modelled as [list ascii]: every character the code inspects
    (the address pattern, the deny-list, the CSV header) is ASCII. *)

From Stdlib Require Import Ascii String.
From Stdlib Require Import Bool Arith Lia List Permutation ZArith.
Import ListNotations.
Open Scope list_scope.

Definition text := list ascii.

(** String literals as texts. *)
Definition lit (s : string) : text := list_ascii_of_string s.

(** ** Character helpers *)

Definition in_range (lo hi c : ascii) : bool :=
  (nat_of_ascii lo <=? nat_of_ascii c) && (nat_of_ascii c <=? nat_of_ascii hi).

Definition is_alpha (c : ascii) : bool :=
  in_range "a" "z" c || in_range "A" "Z" c.

Definition is_alnum (c : ascii) : bool :=
  is_alpha c || in_range "0" "9" c.

(** [[a-zA-Z0-9._%+-]], the class of the local part of [EMAIL_REGEX]. *)
Definition is_local (c : ascii) : bool :=
  is_alnum c || Ascii.eqb c "." || Ascii.eqb c "_" || Ascii.eqb c "%"
  || Ascii.eqb c "+" || Ascii.eqb c "-".

(** [[a-zA-Z0-9.-]], the class of the domain part of [EMAIL_REGEX]. *)
Definition is_dom (c : ascii) : bool :=
  is_alnum c || Ascii.eqb c "." || Ascii.eqb c "-".

(** [String.prototype.toLowerCase] on ASCII characters. *)
Definition to_lower_char (c : ascii) : ascii :=
  if in_range "A" "Z" c then ascii_of_nat (nat_of_ascii c + 32) else c.

Definition toLowerCase (s : text) : text := map to_lower_char s.

(** The longest prefix of [s] whose characters satisfy [p], and the rest. *)
Fixpoint span (p : ascii -> bool) (s : text) : text * text :=
  match s with
  | [] => ([], [])
  | c :: s' =>
      if p c then let '(a, b) := span p s' in (c :: a, b) else ([], s)
  end.

Definition text_eqb (a b : text) : bool :=
  if list_eq_dec ascii_dec a b then true else false.

Fixpoint prefixb (p s : text) : bool :=
  match p, s with
  | [], _ => true
  | c :: p', d :: s' => Ascii.eqb c d && prefixb p' s'
  | _ :: _, [] => false
  end.

(** Unanchored test of a literal pattern, as [/lit/.test(s)]. *)
Fixpoint infixb (p s : text) : bool :=
  prefixb p s || match s with [] => false | _ :: s' => infixb p s' end.

(** ** [EMAIL_REGEX = /[a-zA-Z0-9._%+-]+@[a-zA-Z0-9.-]+\.[a-zA-Z]{2,}/g]

    [dom_end d i] is the end offset of the match inside the run [d] of
    domain characters that follows the [@], where [i] is the offset of the
    head of [d].  The greedy [[a-zA-Z0-9.-]+] backtracks from the right,
    so the chosen [\.] is the rightmost dot at offset >= 1 that is followed
    by at least two letters; the greedy [[a-zA-Z]{2,}] then takes every
    letter after that dot. *)
Fixpoint dom_end (d : text) (i : nat) : option nat :=
  match d with
  | [] => None
  | c :: d' =>
      match dom_end d' (S i) with
      | Some e => Some e
      | None =>
          if (1 <=? i) && Ascii.eqb c "." then
            let L := length (fst (span is_alpha d')) in
            if 2 <=? L then Some (S i + L) else None
          else None
      end
  end.

(** A match of [EMAIL_REGEX] starting at the head of [s]: the matched text
    and the rest of the input.  The greedy local part stops at the first
    character outside its class, which must be the [@]. *)
Definition match_at (s : text) : option (text * text) :=
  let '(loc, r1) := span is_local s in
  match loc, r1 with
  | _ :: _, at_ :: r2 =>
      if Ascii.eqb at_ "@" then
        let '(d, r3) := span is_dom r2 in
        match dom_end d 0 with
        | Some e => Some (loc ++ "@"%char :: firstn e d, skipn e d ++ r3)
        | None => None
        end
      else None
  | _, _ => None
  end.

(** [text.match(EMAIL_REGEX)] with the global flag: every start position is
    tried from left to right; after a match the search resumes at its end. *)
Fixpoint scan (fuel : nat) (s : text) : list text :=
  match fuel with
  | 0 => []
  | S f =>
      match s with
      | [] => []
      | _ :: s' =>
          match match_at s with
          | Some (m, r) => m :: scan f r
          | None => scan f s'
          end
      end
  end.

(** [text.match(EMAIL_REGEX) || []] *)
Definition email_matches (s : text) : list text := scan (length s) s.

(** [/(example\.com|example\.org|example\.net|noreply@|no-reply@)/.test(e)] *)
Definition denied (e : text) : bool :=
  infixb (lit "example.com") e || infixb (lit "example.org") e
  || infixb (lit "example.net") e || infixb (lit "noreply@") e
  || infixb (lit "no-reply@") e.

(** [extractEmailsFromPage]: [body] is the result of the in-page
    evaluation of [document.body.innerText] ([None] when it throws, in
    which case the function catches and returns []). *)
Definition extractEmailsFromPage (body : option text) : list text :=
  match body with
  | None => []
  | Some t => filter (fun e => negb (denied e)) (map toLowerCase (email_matches t))
  end.

(** An address is syntactically valid for the extractor when its pattern
    matches the whole address. *)
Definition valid_address (a : text) : bool :=
  match match_at a with
  | Some (m, []) => text_eqb m a
  | _ => false
  end.



(** ** Persistence collaborators *)

(** A record built in [runQuery]: [{ email, query, timestamp }]. *)
Record row := { r_email : text; r_query : text; r_timestamp : text }.

Definition comma : ascii := ",".
Definition dquote : ascii := "034".
Definition newline : ascii := "010".

Definition csv_header : text := lit "email,query,timestamp".

(** [escapeCsv] *)
Definition escapeCsv (s : text) : text :=
  if existsb (fun c => Ascii.eqb c comma || Ascii.eqb c dquote || Ascii.eqb c newline) s
  then dquote :: flat_map (fun c => if Ascii.eqb c dquote then [c; c] else [c]) s ++ [dquote]
  else s.

Fixpoint join_lines (ls : list text) : text :=
  match ls with
  | [] => []
  | [l] => l
  | l :: ls' => l ++ newline :: join_lines ls'
  end.

(** [appendToCSV]: the text appended to the output file ([None]: nothing
    is written, for an empty batch). *)
Definition appendToCSV (rows : list row) : option text :=
  match rows with
  | [] => None
  | _ => Some (join_lines (map (fun r => escapeCsv (r_email r) ++ comma :: escapeCsv (r_timestamp r)) rows)
               ++ [newline])
  end.

(** An element of the array passed to [supabase.from(table).insert]. *)
Record insert := { created_at : text; ins_email : text }.

(** [saveToSupabase]: the table and the objects inserted, or [None] when
    no client is configured or the batch is empty. *)
Definition saveToSupabase (client : bool) (table : text) (rows : list row)
  : option (text * list insert) :=
  if negb client then None
  else match rows with
       | [] => None
       | _ => Some (table, map (fun r => {| created_at := r_timestamp r; ins_email := r_email r |}) rows)
       end.

(** Number of fields of one line of delimited text (commas outside quotes
    separate fields). *)
Fixpoint csv_commas (inq : bool) (l : text) : nat :=
  match l with
  | [] => 0
  | c :: l' =>
      if Ascii.eqb c dquote then csv_commas (negb inq) l'
      else if Ascii.eqb c comma && negb inq then S (csv_commas inq l')
      else csv_commas inq l'
  end.

Definition csv_field_count (line : text) : nat := S (csv_commas false line).

(** ** The query session ([runQuery]) *)

(** Result of [maybeHandleCaptcha(page)]; the function catches everything
    it runs, so it never throws. *)
Record captcha := { present : bool; solved : bool }.

(** What the page and the browser answer during one iteration of the loop. *)
Record iter_obs := {
  o_captcha : captcha;        (** [maybeHandleCaptcha(page)] *)
  o_wait_ok : bool;           (** the recovery [page.waitForTimeout] does not throw *)
  o_body : option text;       (** [document.body.innerText], [None] if evaluation throws *)
  o_clock : nat -> text;      (** [new Date().toISOString()] for the i-th new row *)
  o_has_next : bool           (** [goToNextPage(page)], which catches its own errors *)
}.

Inductive event :=
| EvAcquire                                (** [browser.newContext(...)] *)
| EvGoto                                   (** first [page.goto], errors caught *)
| EvDetect (page : nat)                    (** [maybeHandleCaptcha] on page [page] *)
| EvRecover                                (** recovery wait after a solved challenge *)
| EvExtract (emails : list text) (seen : list text)
      (** [extractEmailsFromPage], with [collected] at that moment *)
| EvAppend (rows : list row) (seen : list text)
      (** [appendToCSV(rows)], with [collected] at that moment *)
| EvSave (rows : list row)                 (** [saveToSupabase(rows)] *)
| EvNext                                   (** pagination succeeded, [sleep] *)
| EvRelease.                               (** [context.close()] in [finally] *)

Record sess := { s_collected : list text; s_page : nat; s_consec : nat }.

Definition session_init : sess := {| s_collected := []; s_page := 1; s_consec := 0 |}.

Inductive stop_reason := Blocked | NoMorePages | Threw.

Inductive step := Continue (st : sess) | Stop (why : stop_reason).

(** [collected.has(e)] and [collected.add(e)] on a [Set] of strings,
    kept as a list in insertion order. *)
Definition mem (e : text) (l : list text) : bool := existsb (text_eqb e) l.

Definition set_add (e : text) (l : list text) : list text :=
  if mem e l then l else l ++ [e].

(** [newEmails.map(e => ({ email: e, query, timestamp: new Date().toISOString() }))] *)
Fixpoint mk_rows (query : text) (clock : nat -> text) (i : nat) (es : list text) : list row :=
  match es with
  | [] => []
  | e :: es' => {| r_email := e; r_query := query; r_timestamp := clock i |}
                :: mk_rows query clock (S i) es'
  end.

(** The loop body after the challenge counter has been updated in [st]. *)
Definition after_detect (query : text) (st : sess) (o : iter_obs) : list event * step :=
  let c := o_captcha o in
  if present c && solved c && negb (o_wait_ok o) then ([], Stop Threw)
  else
    let rec := if present c && solved c then [EvRecover] else [] in
    let emails := extractEmailsFromPage (o_body o) in
    let newEmails := filter (fun e => negb (mem e (s_collected st))) emails in
    let collected' := fold_left (fun acc e => set_add e acc) newEmails (s_collected st) in
    let handoff :=
      match newEmails with
      | [] => []
      | _ => let rows := mk_rows query (o_clock o) 0 newEmails in
             [EvAppend rows collected'; EvSave rows]
      end in
    if o_has_next o then
      (rec ++ EvExtract emails (s_collected st) :: handoff ++ [EvNext],
       Continue {| s_collected := collected'; s_page := S (s_page st); s_consec := s_consec st |})
    else
      (rec ++ EvExtract emails (s_collected st) :: handoff, Stop NoMorePages).

(** One iteration of [while (true) { ... }] in [runQuery]. *)
Definition iter_step (query : text) (st : sess) (o : iter_obs) : list event * step :=
  let c := o_captcha o in
  let '(evs, r) :=
    if present c && negb (solved c) then
      let cc := S (s_consec st) in
      if 3 <=? cc then ([], Stop Blocked)
      else after_detect query {| s_collected := s_collected st; s_page := s_page st; s_consec := cc |} o
    else after_detect query {| s_collected := s_collected st; s_page := s_page st; s_consec := 0 |} o
  in (EvDetect (s_page st) :: evs, r).

Inductive loop_end := Running (st : sess) | Ended (why : stop_reason).

(** The loop, run on the answers of as many iterations as are observed;
    [Running] when the observations end before the loop does. *)
Fixpoint session_loop (query : text) (st : sess) (obs : list iter_obs) : list event * loop_end :=
  match obs with
  | [] => ([], Running st)
  | o :: os =>
      let '(evs, r) := iter_step query st o in
      match r with
      | Stop why => (evs, Ended why)
      | Continue st' => let '(evs', e) := session_loop query st' os in (evs ++ evs', e)
      end
  end.

Record session_env := {
  e_context_ok : bool;        (** [browser.newContext] does not throw *)
  e_page_ok : bool;           (** [context.newPage] does not throw *)
  e_iters : list iter_obs
}.

Inductive run_result := Resolved | Rejected | Pending.

(** [runQuery(browser, query)].  [newContext] and [newPage] run before the
    [try]; the loop's [catch] swallows every error and [finally] closes the
    context (its own error ignored). *)
Definition runQuery (query : text) (env : session_env) : list event * run_result :=
  if negb (e_context_ok env) then ([], Rejected)
  else if negb (e_page_ok env) then ([EvAcquire], Rejected)
  else
    let '(evs, fin) := session_loop query session_init (e_iters env) in
    match fin with
    | Running _ => (EvAcquire :: EvGoto :: evs, Pending)
    | Ended _ => (EvAcquire :: EvGoto :: evs ++ [EvRelease], Resolved)
    end.

(** ** Token solver ([solveRecaptchaToken]) *)

(** A JSON value read from a response field: a string, or another value
    with its JavaScript truthiness. *)
Inductive jval := JStr (s : text) | JOther (truthy : bool).

Definition truthy (v : option jval) : bool :=
  match v with
  | None => false
  | Some (JStr s) => match s with [] => false | _ => true end
  | Some (JOther b) => b
  end.

(** The fields of [JSON.parse(text || '{}')] the solver reads; [None] is
    [undefined]. *)
Record jobj := { j_token : option jval; j_id : option jval; j_data : option jval;
                 j_task : option jval; j_solution : option jval }.

Definition empty_obj : jobj := {| j_token := None; j_id := None; j_data := None;
                                  j_task := None; j_solution := None |}.

(** A response: status, body text ([res.text()], '' when reading fails) and
    the parsed body ([None] when [JSON.parse] throws, leaving [data = {}]). *)
Record response := { status : nat; body : text; json : option jobj }.

Inductive fetch_result := FetchThrow | FetchResp (r : response).

Definition res_ok (r : response) : bool := (200 <=? status r) && (status r <=? 299).

Definition data_of (r : response) : jobj :=
  match json r with Some d => d | None => empty_obj end.

(** [/Invalid type/i.test(text)] *)
Definition invalid_type (t : text) : bool := infixb (lit "invalid type") (toLowerCase t).

Inductive sev :=
| EPost (type : text) (with_action : bool)   (** POST /token; [data.action] for recaptcha3 *)
| EGet (id : jval)                           (** GET ?key=&id= *)
| ESleep (ms : nat).

(** The service's answers, consumed in order; no answer left is a network
    error. *)
Definition next_fetch (fs : list fetch_result) : fetch_result * list fetch_result :=
  match fs with [] => (FetchThrow, []) | f :: fs' => (f, fs') end.

(** [let id = data?.id || data?.data || data?.task] *)
Definition first_truthy (vs : list (option jval)) : option jval :=
  match find (fun v => truthy v) vs with Some v => v | None => None end.

(** [for (let i = 0; i < n; i++) { await sleep(1500); ... }] *)
Fixpoint poll (n : nat) (id : jval) (fs : list fetch_result)
  : list sev * option jval * list fetch_result :=
  match n with
  | 0 => ([], None, fs)
  | S n' =>
      let '(f, fs1) := next_fetch fs in
      let pre := [ESleep 1500; EGet id] in
      let continue_with (w : list sev) :=
        let '(e, r, fs2) := poll n' id fs1 in (pre ++ w ++ e, r, fs2) in
      match f with
      | FetchThrow => continue_with []
      | FetchResp res =>
          if negb (res_ok res) then
            continue_with (if status res =? 429 then [ESleep 1000] else [])
          else
            let d := data_of res in
            if truthy (j_token d) then (pre, j_token d, fs1)
            else if truthy (j_solution d) then (pre, j_solution d, fs1)
            else match j_data d with
                 | Some (JStr (_ :: _)) => (pre, j_data d, fs1)
                 | _ => continue_with []
                 end
      end
  end.

Definition recaptcha3 : text := lit "recaptcha3".

(** [for (const t of types) { try { ... } catch { ... } }] *)
Fixpoint try_types (types : list text) (fs : list fetch_result) : list sev * option jval :=
  match types with
  | [] => ([], None)
  | t :: ts =>
      let post := EPost t (text_eqb t recaptcha3) in
      let '(f, fs1) := next_fetch fs in
      match f with
      | FetchThrow => let '(e, r) := try_types ts fs1 in (post :: e, r)
      | FetchResp res =>
          if negb (res_ok res) then
            if (status res =? 400) && invalid_type (body res) then
              let '(e, r) := try_types ts fs1 in (post :: e, r)
            else
              let w := if status res =? 429 then [ESleep 1000] else [] in
              let '(e, r) := try_types ts fs1 in (post :: w ++ e, r)
          else
            let d := data_of res in
            if truthy (j_token d) then ([post], j_token d)
            else
              match first_truthy [j_id d; j_data d; j_task d] with
              | Some id =>
                  let '(e1, r1, fs2) := poll 20 id fs1 in
                  match r1 with
                  | Some tok => (post :: e1, Some tok)
                  | None => let '(e, r) := try_types ts fs2 in (post :: e1 ++ e, r)
                  end
              | None => let '(e, r) := try_types ts fs1 in (post :: e, r)
              end
      end
  end.

Definition fallback_types : list text :=
  [lit "recaptcha3"; lit "recaptcha"; lit "recaptcha_enterprise"].

(** [const types = []; if (typeHint) types.push(typeHint);
     for (const t of [...]) if (!types.includes(t)) types.push(t);] *)
Definition solver_types (typeHint : option text) : list text :=
  let types := match typeHint with Some ((_ :: _) as h) => [h] | _ => [] end in
  fold_left (fun acc t => if mem t acc then acc else acc ++ [t]) fallback_types types.

(** [solveRecaptchaToken({ siteKey, pageUrl, typeHint })]; [None] is [null]. *)
Definition solveRecaptchaToken (apiKey : text) (typeHint : option text)
    (fs : list fetch_result) : list sev * option jval :=
  match apiKey with
  | [] => ([], None)
  | _ => try_types (solver_types typeHint) fs
  end.

Definition posted (evs : list sev) : list text :=
  flat_map (fun e => match e with EPost t _ => [t] | _ => [] end) evs.

Definition sleeps (evs : list sev) : list nat :=
  flat_map (fun e => match e with ESleep ms => [ms] | _ => [] end) evs.

Definition not_ok (f : fetch_result) : bool :=
  match f with FetchThrow => true | FetchResp r => negb (res_ok r) end.

(** The exchanges of a solver trace: each request (POST or GET) paired,
    in order, with the answer of the service it consumed; sleeps send
    nothing. *)
Fixpoint exchanges (evs : list sev) (fs : list fetch_result) : list (sev * fetch_result) :=
  match evs with
  | [] => []
  | ESleep _ :: evs' => exchanges evs' fs
  | e :: evs' => (e, fst (next_fetch fs)) :: exchanges evs' (snd (next_fetch fs))
  end.

(** The token an exchange delivers, if any: a successful POST whose body
    has a truthy [token], or a successful GET whose body has a truthy
    [token], else a truthy [solution], else a non-empty string [data]. *)
Definition carries (x : sev * fetch_result) : option jval :=
  match x with
  | (EPost _ _, FetchResp r) =>
      if res_ok r && truthy (j_token (data_of r)) then j_token (data_of r) else None
  | (EGet _, FetchResp r) =>
      if negb (res_ok r) then None
      else
        let d := data_of r in
        if truthy (j_token d) then j_token d
        else if truthy (j_solution d) then j_solution d
        else match j_data d with Some (JStr (_ :: _)) => j_data d | _ => None end
  | _ => None
  end.

(** The answer the solver returns is what the last exchange delivered, no
    earlier exchange delivering anything; no answer means no exchange
    delivered one. *)
Definition delivers (xs : list (sev * fetch_result)) (r : option jval) : Prop :=
  match r with
  | Some v => exists pre x, xs = pre ++ [x] /\ carries x = Some v /\
                Forall (fun y => carries y = None) pre
  | None => Forall (fun y => carries y = None) xs
  end.

(** ** The entry point's batching loop *)

Definition settled (r : run_result) : bool :=
  match r with Resolved | Rejected => true | Pending => false end.

(** [while (idx < queries.length) { slice = queries.slice(idx, idx + C);
      await Promise.allSettled(slice.map(q => runQuery(browser, q)));
      idx += C; }]
    [run q] is the final state of the session for [q].  The result lists
    the slices started, and whether the loop ended (then the browser is
    closed); a slice holding a session that never settles blocks the loop. *)
Fixpoint batch_loop (fuel idx C : nat) (queries : list text) (run : text -> run_result)
  : list (list text) * bool :=
  match fuel with
  | 0 => ([], false)
  | S f =>
      if idx <? length queries then
        let slice := firstn C (skipn idx queries) in
        if forallb (fun q => settled (run q)) slice then
          let '(bs, fin) := batch_loop f (idx + C) C queries run in (slice :: bs, fin)
        else ([slice], false)
      else ([], true)
  end.

Definition main_loop (C : nat) (queries : list text) (run : text -> run_result)
  : list (list text) * bool :=
  batch_loop (S (length queries)) 0 C queries run.

(** Consecutive batches of size [C], the last one holding between 1 and
    [C] elements. *)
Inductive chunked (C : nat) : list (list text) -> list text -> Prop :=
| chunk_nil : chunked C [] []
| chunk_last : forall b, 1 <= length b <= C -> chunked C [b] b
| chunk_cons : forall b bs rest,
    length b = C -> rest <> [] -> chunked C bs rest -> chunked C (b :: bs) (b ++ rest).

Definition is_request (e : sev) : bool := match e with ESleep _ => false | _ => true end.

(** Requests sent to the solving service, and milliseconds spent in
    [sleep], along a solver trace. *)
Definition requests (evs : list sev) : nat := length (filter is_request evs).

Definition slept (evs : list sev) : nat := list_sum (sleeps evs).

(** ** Output header initialisation *)

(** The file system: the content of each path. *)
Definition fsys := text -> option text.

Definition fs_write (fs : fsys) (p : text) (c : text) : fsys :=
  fun p' => if text_eqb p' p then Some c else fs p'.

Definition header_line : text := csv_header ++ [newline].

Definition cr : ascii := "013".

(** [content.split(/\r?\n/)[0]] *)
Fixpoint first_line (s : text) : text :=
  match s with
  | [] => []
  | c :: s' =>
      if Ascii.eqb c newline then []
      else if Ascii.eqb c cr && match s' with d :: _ => Ascii.eqb d newline | [] => false end
      then []
      else c :: first_line s'
  end.

(** White space removed by [String.prototype.trim] (ASCII part, and the
    no-break space). *)
Definition is_ws (c : ascii) : bool :=
  let n := nat_of_ascii c in ((9 <=? n) && (n <=? 13)) || (n =? 32) || (n =? 160).

Fixpoint drop_ws (s : text) : text :=
  match s with
  | [] => []
  | c :: s' => if is_ws c then drop_ws s' else s
  end.

Definition trim (s : text) : text := rev (drop_ws (rev (drop_ws s))).

Fixpoint ends_with_csv (s : text) : bool :=
  match s with
  | [] => false
  | _ :: s' => text_eqb (toLowerCase s) (lit ".csv") || ends_with_csv s'
  end.

(** [OUTPUT_FILE.replace(/\.csv$/i, `.backup-${Date.now()}.csv`)] *)
Definition backup_name (out now : text) : text :=
  if ends_with_csv out
  then firstn (length out - 4) out ++ lit ".backup-" ++ now ++ lit ".csv"
  else out.

(** The start-up block "Ensure CSV header" ([now] is [Date.now()]). *)
Definition ensure_header (fs : fsys) (out now : text) : fsys :=
  match fs out with
  | None => fs_write fs out header_line
  | Some content =>
      if text_eqb (trim (first_line content)) csv_header then fs
      else fs_write (fs_write fs (backup_name out now) content) out header_line
  end.

(** ** Further collaborators *)

(** A reader for the output file's format: RFC 4180 quoting (a field in
    double quotes, a doubled quote inside standing for one quote), fields
    separated by commas and records ended by LF.  [fld] is the field being
    read and [recd] the fields of the current record. *)
Fixpoint csv_read (s : text) (inq : bool) (fld : text) (recd : list text) : list (list text) :=
  match s with
  | [] => match fld, recd with [], [] => [] | _, _ => [recd ++ [fld]] end
  | c :: s' =>
      if inq then
        if Ascii.eqb c dquote then
          match s' with
          | d :: s'' =>
              if Ascii.eqb d dquote then csv_read s'' true (fld ++ [dquote]) recd
              else csv_read s' false fld recd
          | [] => csv_read s' false fld recd
          end
        else csv_read s' true (fld ++ [c]) recd
      else if Ascii.eqb c dquote then csv_read s' true fld recd
      else if Ascii.eqb c comma then csv_read s' false [] (recd ++ [fld])
      else if Ascii.eqb c newline then (recd ++ [fld]) :: csv_read s' false [] []
      else csv_read s' false (fld ++ [c]) recd
  end.

Definition csv_special (c : ascii) : bool :=
  Ascii.eqb c comma || Ascii.eqb c dquote || Ascii.eqb c newline.

(** A row emitted by [csv-parser]: the value of each column, [None] for a
    column the header does not have. *)
Definition csv_obj := text -> option text.

(** [data.query ?? data.q ?? data['search'] ?? ''] *)
Definition pick_query (data : csv_obj) : text :=
  match data (lit "query") with
  | Some v => v
  | None =>
      match data (lit "q") with
      | Some v => v
      | None => match data (lit "search") with Some v => v | None => [] end
      end
  end.

(** [readCSV(filePath)]: [file_exists] is [fs.existsSync(filePath)] and
    [stream] the rows the parser emits ([None] when the stream reports an
    error, which rejects the promise). *)
Definition readCSV (file_exists : bool) (stream : option (list csv_obj)) : option (list text) :=
  if negb file_exists then Some []
  else
    match stream with
    | None => None
    | Some rows =>
        Some (flat_map (fun data =>
                let q := pick_query data in
                match q with
                | [] => []
                | _ => match trim q with [] => [] | t => [t] end
                end) rows)
    end.

(** ** Numbers read from the environment *)

(** A JavaScript number as these lines can produce it: [NaN], an infinity,
    or a finite double, which here is always an integer.  [-0] is [Fin 0]:
    it only arises from [parseInt("-0")], whose value goes straight into
    [Math.max(1, _)], which treats it as [0]. *)
Inductive jsnum := NaN | PosInf | NegInf | Fin (z : Z).

(** The double nearest to a natural number [a] (round to nearest, ties to
    even): a 53-bit significand [q] scaled by [2^sh]. *)
Definition dbl_round (a : Z) : Z :=
  let sh := (Z.log2 a - 52)%Z in
  if (sh <=? 0)%Z then a
  else
    let u := (2 ^ sh)%Z in
    let q := (a / u)%Z in
    let r := (a mod u)%Z in
    let q' := if (u <? 2 * r)%Z || ((2 * r =? u)%Z && Z.odd q) then (q + 1)%Z else q in
    (q' * u)%Z.

(** The Number value of an integer: rounded to a double, and an infinity
    from [2^1024] on. *)
Definition round_double (z : Z) : jsnum :=
  let m := dbl_round (Z.abs z) in
  if (2 ^ 1024 <=? m)%Z then (if (z <? 0)%Z then NegInf else PosInf)
  else Fin (Z.sgn z * m).

Definition is_digit (c : ascii) : bool := in_range "0" "9" c.

Definition digit_val (c : ascii) : Z := (Z.of_nat (nat_of_ascii c) - 48)%Z.

(** The integer a run of decimal digits denotes. *)
Definition digits_value (ds : text) : Z :=
  fold_left (fun acc c => (10 * acc + digit_val c)%Z) ds 0%Z.

(** [parseInt(s, 10)]: leading white space, an optional sign, then the
    longest run of decimal digits, whose value is rounded to a double;
    [NaN] when there is no digit. *)
Definition parseInt (s : text) : jsnum :=
  let s1 := drop_ws s in
  let '(neg, s2) :=
    match s1 with
    | c :: r =>
        if Ascii.eqb c "-" then (true, r)
        else if Ascii.eqb c "+" then (false, r)
        else (false, s1)
    | [] => (false, [])
    end in
  match s2 with
  | c :: _ =>
      if is_digit c then
        let n := digits_value (fst (span is_digit s2)) in
        round_double (if neg then Z.opp n else n)
      else NaN
  | [] => NaN
  end.

Definition digit_char (d : Z) : ascii := ascii_of_nat (48 + Z.to_nat d).

Fixpoint numeral_aux (fuel : nat) (x : Z) (acc : text) : text :=
  match fuel with
  | 0 => acc
  | S f =>
      if (x <? 10)%Z then digit_char x :: acc
      else numeral_aux f (x / 10)%Z (digit_char (x mod 10)%Z :: acc)
  end.

(** The decimal numeral of a natural number, without leading zeros. *)
Definition numeral (x : Z) : text := numeral_aux (S (Z.to_nat (Z.log2 x))) x [].

(** [ToString] on an integer-valued double [x >= 1] chooses the shortest
    [s * 10^(n-k)] ([k] digits in [s]) that reads back as [x]; for a given
    [k] the candidates closest to [x] are the multiples [lo] and [hi] of
    [10^(d-k)] around [x] ([d] digits in [x]); the closer one wins, and on a
    tie the one with an even [s].  The result is the value and its [k]. *)
Definition dbl_eqb (v x : Z) : bool :=
  match round_double v with Fin m => (m =? x)%Z | _ => false end.

Definition sig_digits (v k : Z) : Z :=
  (v / 10 ^ (Z.of_nat (length (numeral v)) - k))%Z.

Fixpoint shortest_from (fuel : nat) (k x d : Z) : Z * Z :=
  match fuel with
  | 0 => (x, d)
  | S f =>
      let u := (10 ^ (d - k))%Z in
      let lo := (x / u * u)%Z in
      let hi := (lo + u)%Z in
      let okl := dbl_eqb lo x in
      let okh := dbl_eqb hi x in
      if okl && okh then
        if (x - lo <? hi - x)%Z then (lo, k)
        else if (hi - x <? x - lo)%Z then (hi, k)
        else if Z.even (sig_digits lo k) then (lo, k) else (hi, k)
      else if okl then (lo, k)
      else if okh then (hi, k)
      else shortest_from f (k + 1)%Z x d
  end.

(** [Number::toString(x)] for an integer-valued double [x >= 1]: below
    [10^21] the digits of [s] followed by [n - k] zeros, that is the numeral
    of [s * 10^(n-k)]; from [10^21] on the exponent form: the first digit,
    a point and the other digits of [s] when [k > 1], then [e+] and [n-1]. *)
Definition pos_to_string (x : Z) : text :=
  let d := Z.of_nat (length (numeral x)) in
  let '(v, k) := shortest_from (Z.to_nat d) 1 x d in
  if (v <? 10 ^ 21)%Z then numeral v
  else
    let n := Z.of_nat (length (numeral v)) in
    match numeral (v / 10 ^ (n - k))%Z with
    | c :: rest =>
        c :: (match rest with [] => [] | _ => "."%char :: rest end)
          ++ lit "e+" ++ numeral (n - 1)%Z
    | [] => []
    end.

(** [String(x)] for a number. *)
Definition js_String (x : jsnum) : text :=
  match x with
  | NaN => lit "NaN"
  | PosInf => lit "Infinity"
  | NegInf => lit "-Infinity"
  | Fin z =>
      if (z =? 0)%Z then lit "0"
      else if (z <? 0)%Z then "-"%char :: pos_to_string (- z)
      else pos_to_string z
  end.

(** [process.env.X || d]: an unset or empty variable gives [d]. *)
Definition env_or (v : option text) (d : text) : text :=
  match v with Some ((_ :: _) as s) => s | _ => d end.

(** [Math.max(1, x)] *)
Definition js_max1 (x : jsnum) : jsnum :=
  match x with
  | NaN => NaN
  | PosInf => PosInf
  | NegInf => Fin 1
  | Fin z => Fin (Z.max 1 z)
  end.

Definition js_sign (x : jsnum) : Z :=
  match x with NaN => 0 | PosInf => 1 | NegInf => -1 | Fin z => Z.sgn z end.

Definition js_mul (x y : jsnum) : jsnum :=
  match x, y with
  | NaN, _ | _, NaN => NaN
  | Fin a, Fin b => round_double (a * b)
  | _, _ =>
      let s := (js_sign x * js_sign y)%Z in
      if (s =? 0)%Z then NaN else if (0 <? s)%Z then PosInf else NegInf
  end.

Definition js_add (x y : jsnum) : jsnum :=
  match x, y with
  | NaN, _ | _, NaN => NaN
  | PosInf, NegInf | NegInf, PosInf => NaN
  | PosInf, _ | _, PosInf => PosInf
  | NegInf, _ | _, NegInf => NegInf
  | Fin a, Fin b => round_double (a + b)
  end.

(** [x || d] on a number: [NaN] and [0] are falsy. *)
Definition js_or_num (x : jsnum) (d : Z) : jsnum :=
  match x with NaN => Fin d | Fin z => if (z =? 0)%Z then Fin d else x | _ => x end.

(** [x < n]: false when [x] is [NaN]. *)
Definition js_lt (x : jsnum) (n : Z) : bool :=
  match x with Fin a => (a <? n)%Z | NegInf => true | _ => false end.

Definition BROWSERS (env : option text) : jsnum := js_max1 (parseInt (env_or env (lit "1"))).

Definition TABS_PER_BROWSER (env : option text) : jsnum := js_max1 (parseInt (env_or env (lit "1"))).

(** [Math.max(1, parseInt(process.env.CONCURRENCY ||
      String(BROWSERS * TABS_PER_BROWSER || 3), 10))] *)
Definition CONCURRENCY (conc browsers tabs : option text) : jsnum :=
  js_max1 (parseInt (env_or conc
    (js_String (js_or_num (js_mul (BROWSERS browsers) (TABS_PER_BROWSER tabs)) 3)))).

(** A bound of [Array.prototype.slice]: [NaN] counts as 0, a negative index
    counts from the end, and the result is clamped to [0, len]. *)
Definition js_rel (len : Z) (k : jsnum) : Z :=
  match k with
  | NaN | NegInf => 0
  | PosInf => len
  | Fin k => if Z.ltb k 0 then Z.max 0 (len + k)%Z else Z.min k len
  end.

Definition js_slice (l : list text) (s e : jsnum) : list text :=
  let len := Z.of_nat (length l) in
  let a := js_rel len s in
  let b := js_rel len e in
  firstn (Z.to_nat (b - a)%Z) (skipn (Z.to_nat a) l).

(** The entry point's loop on JavaScript numbers:
    [while (idx < queries.length) { slice = queries.slice(idx, idx + C); ...;
     idx += C; }] *)
Fixpoint batch_loop_js (fuel : nat) (idx C : jsnum) (queries : list text)
    (run : text -> run_result) : list (list text) * bool :=
  match fuel with
  | 0 => ([], false)
  | S f =>
      if js_lt idx (Z.of_nat (length queries)) then
        let slice := js_slice queries idx (js_add idx C) in
        if forallb (fun q => settled (run q)) slice then
          let '(bs, fin) := batch_loop_js f (js_add idx C) C queries run in (slice :: bs, fin)
        else ([slice], false)
      else ([], true)
  end.

Definition main_loop_js (C : jsnum) (queries : list text) (run : text -> run_result)
  : list (list text) * bool :=
  batch_loop_js (S (length queries)) (Fin 0) C queries run.

(** ** [tryAcceptConsent(page)] *)

(** What [page.$(sel)] answers for one consent locator and, when an
    element is found, how the awaited calls that follow end. The fallback
    [page.click(sel)] has its errors caught, so its outcome is not
    observed. *)
Inductive consent_probe :=
| CThrow                          (** [page.$(sel)] throws *)
| CNone                           (** [page.$(sel)] is [null] *)
| CFound (el_click_ok : bool)     (** [el.click()] resolves *)
         (wait_ok : bool)         (** [page.waitForTimeout(1000)] resolves *)
         (url_after : text).      (** [page.url()] after the wait *)

Inductive cev :=
| CClick (sel : text)             (** [el.click()] *)
| CPageClick (sel : text)         (** [page.click(sel)] after [el.click()] threw *)
| CWait (ms : nat).               (** [page.waitForTimeout(ms)] *)

Definition consent_locators : list text :=
  [lit "#L2AGLb";
   lit "button[aria-label*=" ++ dquote :: lit "Agree" ++ dquote :: lit " i]";
   lit "button:has-text(" ++ dquote :: lit "I agree" ++ dquote :: lit ")";
   lit "button:has-text(" ++ dquote :: lit "Accept all" ++ dquote :: lit ")"].

(** [/consent/i.test(u)] *)
Definition matches_consent (u : text) : bool := infixb (lit "consent") (toLowerCase u).

(** [for (const sel of locators) { try { ... } catch (err) {} } return false;] *)
Fixpoint try_consent (sels : list text) (page : text -> consent_probe) : list cev * bool :=
  match sels with
  | [] => ([], false)
  | sel :: rest =>
      let next (evs : list cev) := let '(e, r) := try_consent rest page in (evs ++ e, r) in
      match page sel with
      | CThrow | CNone => next []
      | CFound ck w u =>
          let evs := CClick sel :: (if ck then [] else [CPageClick sel]) ++ [CWait 1000] in
          if negb w then next evs
          else if negb (matches_consent u) then (evs, true)
          else next evs
      end
  end.

Definition tryAcceptConsent (page : text -> consent_probe) : list cev * bool :=
  try_consent consent_locators page.

(** ** [goToNextPage(page)] *)

(** What [page.$(sel)] answers for one pagination selector and how the
    awaited calls that follow end; the errors of the clicks and of
    [page.waitForSelector('div#search')] are caught on the spot. *)
Inductive next_probe :=
| NThrow                          (** [page.$(sel)] throws *)
| NNone                           (** [page.$(sel)] is [null] *)
| NFound (scroll_ok : bool)       (** [el.scrollIntoViewIfNeeded()] resolves *)
         (wait1_ok : bool)        (** [page.waitForTimeout(500 + Math.random()*500)] *)
         (el_click_ok : bool)     (** [el.click({ delay })] resolves *)
         (wait2_ok : bool).       (** [page.waitForTimeout(1000 + Math.random()*1000)] *)

Inductive nev :=
| NScroll (sel : text)            (** [el.scrollIntoViewIfNeeded()] *)
| NPause (lo hi : nat)            (** [page.waitForTimeout(t)], [lo <= t < hi] *)
| NClick (sel : text)             (** [el.click(...)] *)
| NPageClick (sel : text)         (** [page.click(sel)] after [el.click] threw *)
| NWaitSearch.                    (** [page.waitForSelector('div#search', ...)] *)

Definition next_selectors : list text :=
  [lit "a#pnnext"; lit "a#pnnext span.oeN89d";
   lit "a[aria-label=" ++ dquote :: lit "Next page" ++ dquote :: lit "]";
   lit "a[aria-label=" ++ dquote :: lit "Next" ++ dquote :: lit "]"].

Fixpoint try_next (sels : list text) (page : text -> next_probe) : list nev * bool :=
  match sels with
  | [] => ([], false)
  | sel :: rest =>
      let next (evs : list nev) := let '(e, r) := try_next rest page in (evs ++ e, r) in
      match page sel with
      | NThrow | NNone => next []
      | NFound sc w1 ck w2 =>
          if negb sc then next [NScroll sel]
          else if negb w1 then next [NScroll sel; NPause 500 1000]
          else
            let evs := NScroll sel :: NPause 500 1000 :: NClick sel ::
                       (if ck then [] else [NPageClick sel]) ++ [NWaitSearch; NPause 1000 2000] in
            if w2 then (evs, true) else next evs
      end
  end.

Definition goToNextPage (page : text -> next_probe) : list nev * bool :=
  try_next next_selectors page.

(** ** [maybeHandleCaptcha(page)] *)

(** What the page, the environment and the solving service answer during
    one call. The sitekey scans ([data-sitekey] elements, frame URLs and
    script URLs) catch their own errors; [h_sitekey] is what they find,
    [[]] when they find nothing. *)
Record captcha_env := {
  h_url : text;                          (** [page.url()] *)
  h_consent : text -> consent_probe;     (** answers during [tryAcceptConsent] *)
  h_widget : option bool;                (** [page.$('div.g-recaptcha')], [None] if it throws *)
  h_iframe : option bool;                (** [page.$('iframe[src*="recaptcha"]')] *)
  h_sitekey : text;
  h_extension : bool;                    (** [NOPECHA_EXTENSION_PATH && fs.existsSync(...)] *)
  h_ext_wait_ok : bool;                  (** [page.waitForTimeout(4000)] *)
  h_helper : option bool;                (** [NopechaHelper.solveRecaptchaV2] exists: resolves? *)
  h_has_exec : option bool;              (** [typeof window.grecaptcha !== 'undefined'] *)
  h_g_widget : option bool;              (** [page.$('.g-recaptcha')] for the type hint *)
  h_fetch : list fetch_result;           (** answers to the solver's requests *)
  h_inject_ok : bool;                    (** [page.evaluate] injecting the token *)
  h_wait600_ok : bool                    (** [page.waitForTimeout(600)] *)
}.

(** [/recaptcha|challenge|sorry/i.test(url)] *)
Definition captcha_url (u : text) : bool :=
  let l := toLowerCase u in
  infixb (lit "recaptcha") l || infixb (lit "challenge") l || infixb (lit "sorry") l.

(** The detection condition, evaluated left to right; [None] when one of
    the [page.$] calls throws. *)
Definition captcha_detected (env : captcha_env) : option bool :=
  if captcha_url (h_url env) then Some true
  else match h_widget env with
       | None => None
       | Some true => Some true
       | Some false => h_iframe env
       end.

(** [typeHint]: ['recaptcha3'] when [grecaptcha] is defined and no
    [.g-recaptcha] widget is visible; [null] otherwise or on error. *)
Definition type_hint (env : captcha_env) : option text :=
  match h_has_exec env with
  | Some true => match h_g_widget env with Some false => Some recaptcha3 | _ => None end
  | _ => None
  end.

Definition mk_captcha (p s : bool) : captcha := {| present := p; solved := s |}.

Definition maybeHandleCaptcha (apiKey : text) (env : captcha_env) : captcha :=
  if matches_consent (h_url env) && snd (tryAcceptConsent (h_consent env))
  then mk_captcha true true
  else
    match captcha_detected env with
    | None => mk_captcha false false                       (** outer [catch] *)
    | Some false => mk_captcha false false
    | Some true =>
        match h_sitekey env with
        | [] =>
            if h_extension env then
              if h_ext_wait_ok env then mk_captcha true false else mk_captcha false false
            else mk_captcha true false
        | _ =>
            if match h_helper env with Some true => true | _ => false end
            then mk_captcha true true
            else
              let token := snd (solveRecaptchaToken apiKey (type_hint env) (h_fetch env)) in
              if truthy token then
                if h_inject_ok env && h_wait600_ok env then mk_captcha true true
                else mk_captcha true false
              else mk_captcha true false
        end
    end.

(** A batch whose identities are all outside [S0], and one whose
    identities are all in [S1]. *)
Definition fresh_batch (S0 : list text) (b : list row) : Prop :=
  forall r, In r b -> ~ In (r_email r) S0.

Definition stored_batch (S1 : list text) (b : list row) : Prop :=
  forall r, In r b -> In (r_email r) S1.

(** ** Observing traces *)

Fixpoint count_detect (evs : list event) : nat :=
  match evs with
  | [] => 0
  | EvDetect _ :: r => S (count_detect r)
  | _ :: r => count_detect r
  end.

Fixpoint count_extract (evs : list event) : nat :=
  match evs with
  | [] => 0
  | EvExtract _ _ :: r => S (count_extract r)
  | _ :: r => count_extract r
  end.

Fixpoint count_release (evs : list event) : nat :=
  match evs with
  | [] => 0
  | EvRelease :: r => S (count_release r)
  | _ :: r => count_release r
  end.

Fixpoint count_acquire (evs : list event) : nat :=
  match evs with
  | [] => 0
  | EvAcquire :: r => S (count_acquire r)
  | _ :: r => count_acquire r
  end.

Definition unresolved (o : iter_obs) : bool :=
  present (o_captcha o) && negb (solved (o_captcha o)).

(** The values of [collected] recorded along a trace. *)
Definition snapshots (evs : list event) : list (list text) :=
  flat_map (fun ev => match ev with
                      | EvExtract _ sv | EvAppend _ sv => [sv]
                      | _ => []
                      end) evs.

(** Every call of [appendToCSV] comes right after an extraction, and each
    row it receives holds an identity that was not in [collected] at that
    extraction and that is in [collected] at the call. *)
Definition handoffs_fresh (evs : list event) : Prop :=
  forall pre rows sv post, evs = pre ++ EvAppend rows sv :: post ->
  exists pre' es S0, pre = pre' ++ [EvExtract es S0] /\
    forall r, In r rows -> ~ In (r_email r) S0 /\ In (r_email r) sv.

(** Every call of [saveToSupabase] comes right after the [appendToCSV]
    call for the same batch, itself right after an extraction; each row of
    the batch holds an identity that was not in [collected] at that
    extraction and that is in [collected] at the calls. *)
Definition saves_fresh (evs : list event) : Prop :=
  forall pre rows post, evs = pre ++ EvSave rows :: post ->
  exists pre' es S0 sv, pre = pre' ++ [EvExtract es S0; EvAppend rows sv] /\
    forall r, In r rows -> ~ In (r_email r) S0 /\ In (r_email r) sv.

(** The batches handed to [appendToCSV] and to [saveToSupabase], in order. *)
Definition appended (evs : list event) : list (list row) :=
  flat_map (fun ev => match ev with EvAppend rows _ => [rows] | _ => [] end) evs.

Definition saved (evs : list event) : list (list row) :=
  flat_map (fun ev => match ev with EvSave rows => [rows] | _ => [] end) evs.

(** A batch handed to persistence: non-empty, tagged with the session's
    query, and stored as [{created_at, email}] records when a client is
    configured. *)
Definition batch_ok (q : text) (rows : list row) : Prop :=
  rows <> [] /\ Forall (fun r => r_query r = q) rows /\
  (forall table, saveToSupabase true table rows =
     Some (table, map (fun r => {| created_at := r_timestamp r; ins_email := r_email r |}) rows)) /\
  (forall table, saveToSupabase false table rows = None).

(** The solver's type hint as a list (empty when absent or empty). *)
Definition hint_list (typeHint : option text) : list text :=
  match typeHint with Some ((_ :: _) as h) => [h] | _ => [] end.

Definition sample_out : text := lit "/app/output.csv".
Definition sample_now : text := lit "1760000000000".

(** Sample page answers. *)
Definition sample_clock : nat -> text := fun _ => lit "2025-01-01T00:00:00.000Z".

Definition mk_obs (p s w : bool) (body : option text) (nx : bool) : iter_obs :=
  {| o_captcha := {| present := p; solved := s |}; o_wait_ok := w; o_body := body;
     o_clock := sample_clock; o_has_next := nx |}.

Definition sample_body : option text := Some (lit "Contact: Info@Plumb.io, sales@plumb.io").

Definition query0 : text := lit "plumbers in boston".

(* ================================================================== *)
(** * Properties *)

Example match_ex1 :
  email_matches (lit "Mail Bob@Site.co.uk, or a.b@x-y.io!") = [lit "Bob@Site.co.uk"; lit "a.b@x-y.io"].
Proof. vm_compute. reflexivity. Qed.

Example match_ex2 :
  email_matches (lit "x@a.b1.com-z q@w.e") = [lit "x@a.b1.com"].
Proof. vm_compute. reflexivity. Qed.

Example extract_ex :
  extractEmailsFromPage (Some (lit "Bob@Site.COM noreply@x.com a@Example.org"))
  = [lit "bob@site.com"].
Proof. vm_compute. reflexivity. Qed.

(** ** Lemmas on the matcher *)

Lemma span_app (p : ascii -> bool) (s : text) :
  s = fst (span p s) ++ snd (span p s).
Proof.
  induction s as [|c s IH]; simpl; [reflexivity|].
  destruct (p c); [|reflexivity].
  destruct (span p s) as [a b]; simpl in *; rewrite IH at 1; reflexivity.
Qed.


Lemma span_app_all (p : ascii -> bool) (x y : text) (c : ascii) :
  span p x = (x, []) -> p c = false -> span p (x ++ c :: y) = (x, c :: y).
Proof.
  intros H Hc; induction x as [|d x IH]; simpl in *.
  - rewrite Hc; reflexivity.
  - destruct (p d); [|discriminate].
    destruct (span p x) as [a b] eqn:E. injection H as -> ->.
    rewrite (IH eq_refl). reflexivity.
Qed.




Lemma valid_address_match (a : text) :
  valid_address a = true -> match_at a = Some (a, []).
Proof.
  unfold valid_address, text_eqb.
  destruct (match_at a) as [[m [|x r]]|]; try discriminate.
  destruct (list_eq_dec ascii_dec m a) as [->|]; [reflexivity|discriminate].
Qed.





Lemma to_lower_char_idem (c : ascii) : to_lower_char (to_lower_char c) = to_lower_char c.
Proof. destruct c as [[] [] [] [] [] [] [] []]; reflexivity. Qed.

Lemma toLowerCase_idem (s : text) : toLowerCase (toLowerCase s) = toLowerCase s.
Proof.
  unfold toLowerCase. rewrite map_map.
  apply map_ext, to_lower_char_idem.
Qed.






(** ** The session loop *)

Lemma count_detect_app (a b : list event) :
  count_detect (a ++ b) = count_detect a + count_detect b.
Proof. induction a as [|[] a IH]; simpl; rewrite ?IH; reflexivity. Qed.

Lemma count_extract_app (a b : list event) :
  count_extract (a ++ b) = count_extract a + count_extract b.
Proof. induction a as [|[] a IH]; simpl; rewrite ?IH; reflexivity. Qed.

Lemma after_detect_no_detect (q : text) (st : sess) (o : iter_obs) :
  count_detect (fst (after_detect q st o)) = 0.
Proof.
  unfold after_detect.
  destruct (present _), (solved _), (o_wait_ok _), (o_has_next _); simpl; try reflexivity;
  rewrite ?count_detect_app; destruct (filter _ _); reflexivity.
Qed.

Lemma after_detect_extract (q : text) (st : sess) (o : iter_obs) :
  count_extract (fst (after_detect q st o)) =
  if present (o_captcha o) && solved (o_captcha o) && negb (o_wait_ok o) then 0 else 1.
Proof.
  unfold after_detect.
  destruct (present _), (solved _), (o_wait_ok _), (o_has_next _); simpl; try reflexivity;
  rewrite ?count_extract_app; destruct (filter _ _); reflexivity.
Qed.

Lemma after_detect_result (q : text) (st : sess) (o : iter_obs) :
  match snd (after_detect q st o) with
  | Stop Threw => present (o_captcha o) && solved (o_captcha o) && negb (o_wait_ok o) = true
  | Stop NoMorePages =>
      present (o_captcha o) && solved (o_captcha o) && negb (o_wait_ok o) = false /\
      o_has_next o = false
  | Stop Blocked => False
  | Continue st' =>
      present (o_captcha o) && solved (o_captcha o) && negb (o_wait_ok o) = false /\
      o_has_next o = true /\ s_consec st' = s_consec st /\ s_page st' = S (s_page st)
  end.
Proof.
  unfold after_detect.
  destruct (present _), (solved _), (o_wait_ok _), (o_has_next _); simpl; auto.
Qed.

Lemma iter_step_unfold (q : text) (st : sess) (o : iter_obs) :
  iter_step q st o =
  (EvDetect (s_page st) :: fst (
     if unresolved o then
       if 3 <=? S (s_consec st) then ([], Stop Blocked)
       else after_detect q {| s_collected := s_collected st; s_page := s_page st;
                              s_consec := S (s_consec st) |} o
     else after_detect q {| s_collected := s_collected st; s_page := s_page st; s_consec := 0 |} o),
   snd (
     if unresolved o then
       if 3 <=? S (s_consec st) then ([], Stop Blocked)
       else after_detect q {| s_collected := s_collected st; s_page := s_page st;
                              s_consec := S (s_consec st) |} o
     else after_detect q {| s_collected := s_collected st; s_page := s_page st; s_consec := 0 |} o)).
Proof.
  unfold iter_step, unresolved.
  destruct (present _ && negb _); [destruct (3 <=? _)|]; try reflexivity;
  destruct (after_detect _ _ _); reflexivity.
Qed.

Lemma iter_step_unresolved (q : text) (st : sess) (o : iter_obs) :
  unresolved o = true ->
  count_detect (fst (iter_step q st o)) = 1 /\
  match snd (iter_step q st o) with
  | Stop Blocked => 2 <= s_consec st
  | Stop NoMorePages => s_consec st < 2 /\ o_has_next o = false
  | Stop Threw => False
  | Continue st' => s_consec st < 2 /\ o_has_next o = true /\ s_consec st' = S (s_consec st)
  end.
Proof.
  intros Hu. rewrite iter_step_unfold, Hu.
  destruct (3 <=? S (s_consec st)) eqn:E; simpl fst; simpl snd.
  - apply Nat.leb_le in E. simpl. split; [reflexivity|lia].
  - apply Nat.leb_gt in E. simpl count_detect. rewrite after_detect_no_detect.
    split; [reflexivity|].
    pose proof (after_detect_result q {| s_collected := s_collected st; s_page := s_page st;
                              s_consec := S (s_consec st) |} o) as R.
    unfold unresolved in Hu. apply andb_prop in Hu as [Hp Hs].
    rewrite Hp in R. destruct (solved _); [discriminate|]. simpl in R.
    destruct (snd _) as [st'|[]]; simpl in R; intuition lia.
Qed.

Lemma iter_step_counter (q : text) (st : sess) (o : iter_obs) :
  match snd (iter_step q st o) with
  | Continue st' => s_consec st' = if unresolved o then S (s_consec st) else 0
  | Stop _ => True
  end.
Proof.
  rewrite iter_step_unfold.
  destruct (unresolved o); [destruct (3 <=? S (s_consec st))|]; simpl snd; [exact I| |];
  match goal with |- context [after_detect q ?s o] =>
    pose proof (after_detect_result q s o) as R end;
  destruct (snd _) as [st'|[]]; simpl in R; intuition.
Qed.

(** C2 (amended).  Every iteration of the session loop begins with the
    challenge detection (and detects only there), and runs the extraction
    exactly once, except the iteration that reaches the blocked-query
    threshold (a third consecutive unresolved challenge, which breaks out
    before extracting) and an iteration whose recovery wait after a solved
    challenge throws; in particular, unresolved iterations below the
    threshold do extract. *)
Theorem extraction_each_iteration (q : text) (st : sess) (o : iter_obs) :
  (exists evs, fst (iter_step q st o) = EvDetect (s_page st) :: evs /\ count_detect evs = 0) /\
  count_extract (fst (iter_step q st o)) =
  if (unresolved o && (2 <=? s_consec st))
     || (present (o_captcha o) && solved (o_captcha o) && negb (o_wait_ok o))
  then 0 else 1.
Proof.
  rewrite iter_step_unfold. cbn [fst count_extract]. split.
  { eexists. split; [reflexivity|].
    destruct (unresolved o); [destruct (3 <=? S (s_consec st))|];
      [reflexivity| |]; apply after_detect_no_detect. }
  destruct (unresolved o) eqn:Hu.
  - unfold unresolved in Hu. apply andb_prop in Hu as [Hp Hs].
    apply negb_true_iff in Hs. rewrite Hp, Hs. cbn [andb negb orb].
    destruct (2 <=? s_consec st) eqn:E.
    + apply Nat.leb_le in E.
      replace (3 <=? S (s_consec st)) with true by (symmetry; apply Nat.leb_le; lia).
      reflexivity.
    + apply Nat.leb_gt in E.
      replace (3 <=? S (s_consec st)) with false by (symmetry; apply Nat.leb_gt; lia).
      rewrite after_detect_extract. simpl. rewrite Hp, Hs. reflexivity.
  - rewrite after_detect_extract. reflexivity.
Qed.

(** C2 (counterexample).  Under a challenge that stays unresolved, the third
    iteration breaks out of the loop before extracting: three detections,
    two extractions. *)
Lemma third_unresolved_iteration_skips_extraction :
  let u := mk_obs true false true sample_body true in
  count_detect (fst (session_loop query0 session_init [u; u; u])) = 3 /\
  count_extract (fst (session_loop query0 session_init [u; u; u])) = 2 /\
  snd (session_loop query0 session_init [u; u; u]) = Ended Blocked.
Proof. vm_compute. repeat split. Qed.

(** C3 (amended).  When the first three iterations all report an unresolved
    challenge, the session ends with the blocked-query outcome after exactly
    3 iterations if pagination succeeds after the first two; otherwise it
    ends earlier, when pagination reports no next page.  Every iteration
    that continues the loop sets the consecutive-unresolved counter to its
    previous value plus one after an unresolved challenge and to zero after
    a clear or resolved one. *)
Theorem unresolved_session_outcome (q : text) (o1 o2 o3 : iter_obs) (rest : list iter_obs) :
  Forall (fun o => unresolved o = true) [o1; o2; o3] ->
  (count_detect (fst (session_loop q session_init (o1 :: o2 :: o3 :: rest))),
   snd (session_loop q session_init (o1 :: o2 :: o3 :: rest))) =
  (if o_has_next o1 then if o_has_next o2 then (3, Ended Blocked) else (2, Ended NoMorePages)
   else (1, Ended NoMorePages)) /\
  (forall st o, match snd (iter_step q st o) with
                | Continue st' => s_consec st' = if unresolved o then S (s_consec st) else 0
                | Stop _ => True
                end).
Proof.
  intros H. inversion H as [|? ? H1 H']; subst. inversion H' as [|? ? H2 H'']; subst.
  inversion H'' as [|? ? H3 _]; subst.
  split; [|intros st o; apply iter_step_counter].
  simpl session_loop.
  pose proof (iter_step_unresolved q session_init o1 H1) as [C1 R1].
  destruct (iter_step q session_init o1) as [e1 r1]. simpl in C1, R1.
  destruct r1 as [st1|[]]; simpl in R1; try lia.
  - destruct R1 as [_ [N1 K1]]. rewrite N1.
    pose proof (iter_step_unresolved q st1 o2 H2) as [C2 R2].
    destruct (iter_step q st1 o2) as [e2 r2]. simpl in C2, R2.
    destruct r2 as [st2|[]]; try lia.
    + destruct R2 as [_ [N2 K2]]. rewrite N2.
      pose proof (iter_step_unresolved q st2 o3 H3) as [C3 R3].
      destruct (iter_step q st2 o3) as [e3 r3]. simpl in C3, R3.
      destruct r3 as [st3|[]]; try lia.
      simpl. rewrite !count_detect_app, C1, C2, C3. reflexivity.
    + destruct R2 as [_ N2]. rewrite N2. simpl.
      rewrite count_detect_app, C1, C2. reflexivity.
  - destruct R1 as [_ N1]. rewrite N1. simpl. rewrite C1. reflexivity.
Qed.

Lemma unresolved_session_outcome_witness :
  let u := mk_obs true false true sample_body true in
  Forall (fun o => unresolved o = true) [u; u; u] /\
  (count_detect (fst (session_loop query0 session_init [u; u; u])),
   snd (session_loop query0 session_init [u; u; u])) = (3, Ended Blocked).
Proof.
  intros u. assert (H : Forall (fun o => unresolved o = true) [u; u; u]) by (repeat constructor).
  split; [exact H|].
  exact (proj1 (unresolved_session_outcome query0 u u u [] H)).
Defined.

(** C3 (counterexample).  A page that always reports an unresolved
    challenge but has no next page ends the session after one iteration,
    with the no-more-pages outcome. *)
Lemma unresolved_session_stops_at_first_page :
  let u := mk_obs true false true sample_body true in
  let u_last := mk_obs true false true sample_body false in
  count_detect (fst (session_loop query0 session_init [u_last; u; u; u])) = 1 /\
  snd (session_loop query0 session_init [u_last; u; u; u]) = Ended NoMorePages.
Proof. vm_compute. split; reflexivity. Qed.

Lemma count_acquire_app (a b : list event) :
  count_acquire (a ++ b) = count_acquire a + count_acquire b.
Proof. induction a as [|[] a IH]; simpl; rewrite ?IH; reflexivity. Qed.

Lemma count_release_app (a b : list event) :
  count_release (a ++ b) = count_release a + count_release b.
Proof. induction a as [|[] a IH]; simpl; rewrite ?IH; reflexivity. Qed.

Lemma after_detect_threw (q : text) (st : sess) (o : iter_obs) :
  snd (after_detect q st o) = Stop Threw <->
  present (o_captcha o) && solved (o_captcha o) && negb (o_wait_ok o) = true.
Proof.
  unfold after_detect.
  destruct (present _), (solved _), (o_wait_ok _), (o_has_next _); simpl;
    split; intros; first [reflexivity | discriminate].
Qed.

Lemma after_detect_continue (q : text) (st : sess) (o : iter_obs) :
  present (o_captcha o) && solved (o_captcha o) && negb (o_wait_ok o) = false ->
  o_has_next o = true -> exists st', snd (after_detect q st o) = Continue st'.
Proof.
  unfold after_detect. intros Hw Hn. rewrite Hw, Hn. simpl. eauto.
Qed.

Lemma after_detect_no_ctx (q : text) (st : sess) (o : iter_obs) :
  count_acquire (fst (after_detect q st o)) = 0 /\ count_release (fst (after_detect q st o)) = 0.
Proof.
  unfold after_detect.
  destruct (present _), (solved _), (o_wait_ok _), (o_has_next _); simpl; try (split; reflexivity);
  rewrite ?count_acquire_app, ?count_release_app; destruct (filter _ _); split; reflexivity.
Qed.

Lemma iter_step_one_detect (q : text) (st : sess) (o : iter_obs) :
  count_detect (fst (iter_step q st o)) = 1.
Proof.
  rewrite iter_step_unfold. cbn [fst count_detect].
  destruct (unresolved o); [destruct (3 <=? S (s_consec st))|];
    simpl; rewrite ?after_detect_no_detect; reflexivity.
Qed.

Lemma iter_step_no_ctx (q : text) (st : sess) (o : iter_obs) :
  count_acquire (fst (iter_step q st o)) = 0 /\ count_release (fst (iter_step q st o)) = 0.
Proof.
  rewrite iter_step_unfold. cbn [fst count_acquire count_release].
  destruct (unresolved o); [destruct (3 <=? S (s_consec st))|];
    simpl; try (split; reflexivity); apply after_detect_no_ctx.
Qed.

Lemma session_loop_no_ctx (q : text) (st : sess) (os : list iter_obs) :
  count_acquire (fst (session_loop q st os)) = 0 /\ count_release (fst (session_loop q st os)) = 0.
Proof.
  revert st; induction os as [|o os IH]; intros st; simpl; [split; reflexivity|].
  pose proof (iter_step_no_ctx q st o) as N.
  destruct (iter_step q st o) as [e [st'|why]]; simpl in *; [|exact N].
  specialize (IH st'). destruct (session_loop q st' os) as [e' f]. simpl in *.
  rewrite count_acquire_app, count_release_app. lia.
Qed.

Lemma iter_step_threw (q : text) (st : sess) (o : iter_obs) :
  snd (iter_step q st o) = Stop Threw <->
  present (o_captcha o) && solved (o_captcha o) && negb (o_wait_ok o) = true.
Proof.
  rewrite iter_step_unfold. cbn [snd].
  destruct (unresolved o) eqn:Hu; [destruct (3 <=? S (s_consec st))|];
    try apply after_detect_threw.
  unfold unresolved in Hu. apply andb_prop in Hu as [_ Hs].
  apply negb_true_iff in Hs. rewrite Hs, andb_false_r. simpl.
  split; intros H'; discriminate H'.
Qed.

(** C5 (amended).  Failures inside challenge detection, extraction,
    persistence and pagination are caught by those operations (which then
    report no challenge, no address, or no next page), so an iteration ends
    the session only by the blocked-query threshold, by the absence of a next
    page, or by an error escaping the loop body, which is exactly the
    recovery wait after a solved challenge throwing.  Otherwise the loop
    re-enters challenge detection on the next iteration.  An escaping error
    ends the session: it is caught outside the loop, [runQuery] resolves and
    the context is released once. *)
Theorem iteration_error_scope (q : text) :
  (forall st o, snd (iter_step q st o) = Stop Threw <->
     present (o_captcha o) && solved (o_captcha o) && negb (o_wait_ok o) = true) /\
  (forall st o o' os,
     unresolved o && (2 <=? s_consec st) = false ->
     present (o_captcha o) && solved (o_captcha o) && negb (o_wait_ok o) = false ->
     o_has_next o = true ->
     (exists st', snd (iter_step q st o) = Continue st') /\
     2 <= count_detect (fst (session_loop q st (o :: o' :: os)))) /\
  (forall env, e_context_ok env = true -> e_page_ok env = true ->
     snd (session_loop q session_init (e_iters env)) = Ended Threw ->
     snd (runQuery q env) = Resolved /\ count_acquire (fst (runQuery q env)) = 1 /\
     count_release (fst (runQuery q env)) = 1).
Proof.
  split; [|split].
  - intros st o. apply iter_step_threw.
  - intros st o o' os Hb Hw Hn.
    assert (Hc : exists st', snd (iter_step q st o) = Continue st').
    { rewrite iter_step_unfold. cbn [snd].
      destruct (unresolved o) eqn:Hu; cbn [andb] in Hb.
      - replace (3 <=? S (s_consec st)) with false
          by (symmetry; apply Nat.leb_gt; apply Nat.leb_gt in Hb; lia).
        apply after_detect_continue; assumption.
      - apply after_detect_continue; assumption. }
    split; [exact Hc|]. destruct Hc as [st' Hc].
    simpl session_loop.
    pose proof (iter_step_one_detect q st o) as C.
    destruct (iter_step q st o) as [e1 r1]. simpl in Hc, C. subst r1.
    simpl session_loop.
    pose proof (iter_step_one_detect q st' o') as C'.
    destruct (iter_step q st' o') as [e2 [st''|why]]; simpl in C' |- *.
    + destruct (session_loop q st'' os) as [e3 f3]. simpl.
      rewrite !count_detect_app, C, C'. lia.
    + rewrite count_detect_app, C, C'. lia.
  - intros env Hc Hp Ht. unfold runQuery. rewrite Hc, Hp. simpl negb. cbv iota.
    pose proof (session_loop_no_ctx q session_init (e_iters env)) as [A R].
    destruct (session_loop q session_init (e_iters env)) as [evs fin]. simpl in Ht, A, R. subst fin.
    simpl. rewrite count_acquire_app, count_release_app, A, R. simpl.
    split; [reflexivity|split; reflexivity].
Qed.

(** C5 (counterexample).  After a solved challenge, a throwing recovery
    wait ends the session in its first iteration, although the next
    iteration would have run. *)
Lemma recovery_wait_error_ends_session :
  let bad := mk_obs true true false sample_body true in
  let good := mk_obs false false true sample_body true in
  runQuery query0 {| e_context_ok := true; e_page_ok := true; e_iters := [bad; good; good] |}
  = ([EvAcquire; EvGoto; EvDetect 1; EvRelease], Resolved).
Proof. vm_compute. reflexivity. Qed.

(** ** The seen-records set *)

Lemma text_eqb_true (a b : text) : text_eqb a b = true <-> a = b.
Proof.
  unfold text_eqb. destruct (list_eq_dec ascii_dec a b); split; congruence.
Qed.

Lemma mem_false (e : text) (sv : list text) : mem e sv = false -> ~ In e sv.
Proof.
  unfold mem. intros H Hin.
  assert (existsb (text_eqb e) sv = true).
  { apply existsb_exists. exists e. split; [exact Hin|]. apply text_eqb_true. reflexivity. }
  congruence.
Qed.

Lemma set_add_incl (e : text) (sv : list text) : incl sv (set_add e sv) /\ In e (set_add e sv).
Proof.
  unfold set_add. destruct (mem e sv) eqn:E.
  - split; [apply incl_refl|].
    unfold mem in E. apply existsb_exists in E as [x [Hx Hex]].
    apply text_eqb_true in Hex. subst. exact Hx.
  - split; [apply incl_appl, incl_refl|]. apply in_or_app. right. left. reflexivity.
Qed.

Lemma fold_set_add (l sv : list text) :
  incl sv (fold_left (fun acc e => set_add e acc) l sv) /\
  forall e, In e l -> In e (fold_left (fun acc e => set_add e acc) l sv).
Proof.
  revert sv; induction l as [|x l IH]; intros sv; simpl.
  - split; [apply incl_refl|]. intros e [].
  - destruct (set_add_incl x sv) as [I1 I2].
    destruct (IH (set_add x sv)) as [J1 J2]. split.
    + eapply incl_tran; eassumption.
    + intros e [<-|He]; [apply J1, I2|apply J2, He].
Qed.

Lemma mk_rows_emails (q : text) (clock : nat -> text) (i : nat) (es : list text) :
  map r_email (mk_rows q clock i es) = es /\ Forall (fun r => r_query r = q) (mk_rows q clock i es).
Proof.
  revert i; induction es as [|e es IH]; intros i; simpl; [split; constructor|].
  destruct (IH (S i)) as [H1 H2]. split; [f_equal; exact H1|constructor; [reflexivity|exact H2]].
Qed.

Lemma handoffs_fresh_app (a b : list event) :
  handoffs_fresh a -> handoffs_fresh b -> handoffs_fresh (a ++ b).
Proof.
  intros Ha Hb pre rows sv post H.
  apply app_eq_app in H as [l [[Hx Hy]|[Hx Hy]]].
  - destruct l as [|y l].
    + rewrite app_nil_r in Hx. subst a. simpl in Hy.
      destruct (Hb [] rows sv post (eq_sym Hy)) as [pre' [es [S0 [Hp _]]]].
      destruct pre'; discriminate Hp.
    + simpl in Hy. injection Hy as Hy1 Hy. subst y a.
      exact (Ha pre rows sv l eq_refl).
  - subst pre. destruct (Hb l rows sv post Hy) as [pre' [es [S0 [Hp Hr]]]].
    exists (a ++ pre'), es, S0. split; [subst l; apply app_assoc|exact Hr].
Qed.

Lemma handoffs_fresh_none (l : list event) :
  (forall rows sv, ~ In (EvAppend rows sv) l) -> handoffs_fresh l.
Proof.
  intros H pre rows sv post ->. exfalso. apply (H rows sv). apply in_elt.
Qed.

Lemma handoffs_fresh_nil : handoffs_fresh [].
Proof. apply handoffs_fresh_none. intros rows sv []. Qed.

Lemma handoffs_fresh_cons (x : event) (l : list event) :
  (forall rows sv, x <> EvAppend rows sv) -> handoffs_fresh l -> handoffs_fresh (x :: l).
Proof.
  intros Hx Hl pre rows sv post H.
  destruct pre as [|y pre]; simpl in H; injection H as Hy H.
  - exfalso. exact (Hx rows sv Hy).
  - subst y. destruct (Hl pre rows sv post H) as [pre' [es [S0 [Hp Hr]]]].
    exists (x :: pre'), es, S0. split; [subst pre; reflexivity|exact Hr].
Qed.

Lemma handoffs_fresh_extract_append (es S0 : list text) (rows : list row) (sv : list text)
    (l : list event) :
  (forall r, In r rows -> ~ In (r_email r) S0 /\ In (r_email r) sv) ->
  handoffs_fresh l -> handoffs_fresh (EvExtract es S0 :: EvAppend rows sv :: l).
Proof.
  intros Hr Hl pre rows' sv' post H.
  destruct pre as [|a [|b pre]]; simpl in H.
  - discriminate H.
  - inversion H; subst. exists [], es, S0. split; [reflexivity|exact Hr].
  - injection H as Ha Hb H. subst a b.
    destruct (Hl pre rows' sv' post H) as [pre' [es' [S1 [Hp Hr']]]].
    exists (EvExtract es S0 :: EvAppend rows sv :: pre'), es', S1.
    split; [subst pre; reflexivity|exact Hr'].
Qed.

Lemma ForallOrdPairs_app {A} (R : A -> A -> Prop) (a b : list A) :
  ForallOrdPairs R a -> ForallOrdPairs R b ->
  (forall x y, In x a -> In y b -> R x y) -> ForallOrdPairs R (a ++ b).
Proof.
  intros Ha Hb Hx. induction Ha as [|x a Hxa Ha IH]; simpl; [exact Hb|].
  constructor.
  - apply Forall_app. split; [exact Hxa|].
    apply Forall_forall. intros y Hy. apply Hx; [left; reflexivity|exact Hy].
  - apply IH. intros x' y Hx' Hy. apply Hx; [right; exact Hx'|exact Hy].
Qed.

Lemma snapshots_app (a b : list event) : snapshots (a ++ b) = snapshots a ++ snapshots b.
Proof. unfold snapshots. apply flat_map_app. Qed.

Ltac fresh_trace :=
  repeat first
    [ apply handoffs_fresh_nil
    | apply handoffs_fresh_extract_append; [assumption|]
    | apply handoffs_fresh_cons; [intros ? ? ?; discriminate|] ].

Lemma after_detect_seen (q : text) (st : sess) (o : iter_obs) :
  handoffs_fresh (fst (after_detect q st o)) /\
  ForallOrdPairs (@incl text) (snapshots (fst (after_detect q st o))) /\
  Forall (incl (s_collected st)) (snapshots (fst (after_detect q st o))) /\
  match snd (after_detect q st o) with
  | Continue st' => Forall (fun sv => incl sv (s_collected st')) (snapshots (fst (after_detect q st o)))
                    /\ incl (s_collected st) (s_collected st')
  | Stop _ => True
  end.
Proof.
  unfold after_detect. cbv zeta.
  destruct (present (o_captcha o) && solved (o_captcha o) && negb (o_wait_ok o)).
  { simpl. split; [exact handoffs_fresh_nil|]. repeat split; constructor. }
  remember (extractEmailsFromPage (o_body o)) as emails eqn:He.
  remember (filter (fun e => negb (mem e (s_collected st))) emails) as ne eqn:Hne.
  destruct (fold_set_add ne (s_collected st)) as [Hinc Hin].
  remember (fold_left (fun acc e => set_add e acc) ne (s_collected st)) as C' eqn:HC.
  assert (Hrows : forall r, In r (mk_rows q (o_clock o) 0 ne) ->
                   ~ In (r_email r) (s_collected st) /\ In (r_email r) C').
  { intros r Hr. destruct (mk_rows_emails q (o_clock o) 0 ne) as [Hm _].
    assert (Hr' : In (r_email r) ne) by (rewrite <- Hm; apply in_map, Hr).
    split; [|apply Hin, Hr'].
    rewrite Hne in Hr'. apply filter_In in Hr' as [_ Hf].
    apply negb_true_iff in Hf. apply mem_false, Hf. }
  set (S0 := s_collected st) in *.
  destruct (present (o_captcha o) && solved (o_captcha o)), (o_has_next o), ne as [|x xs];
    simpl; (split; [fresh_trace|]);
    repeat split; repeat constructor; try apply incl_refl; try assumption.
Qed.

Lemma saves_fresh_app (a b : list event) :
  saves_fresh a -> saves_fresh b -> saves_fresh (a ++ b).
Proof.
  intros Ha Hb pre rows post H.
  apply app_eq_app in H as [l [[Hx Hy]|[Hx Hy]]].
  - destruct l as [|y l].
    + rewrite app_nil_r in Hx. subst a. simpl in Hy.
      destruct (Hb [] rows post (eq_sym Hy)) as (pre' & es & S0 & sv & Hp & _).
      destruct pre'; discriminate Hp.
    + simpl in Hy. injection Hy as Hy1 Hy. subst y a.
      exact (Ha pre rows l eq_refl).
  - subst pre. destruct (Hb l rows post Hy) as (pre' & es & S0 & sv & Hp & Hr).
    exists (a ++ pre'), es, S0, sv. split; [subst l; apply app_assoc|exact Hr].
Qed.

Lemma saves_fresh_nil : saves_fresh [].
Proof. intros pre rows post H. destruct pre; discriminate H. Qed.

Lemma saves_fresh_cons (x : event) (l : list event) :
  (forall rows, x <> EvSave rows) -> saves_fresh l -> saves_fresh (x :: l).
Proof.
  intros Hx Hl pre rows post H.
  destruct pre as [|y pre]; simpl in H; injection H as Hy H.
  - exfalso. exact (Hx rows Hy).
  - subst y. destruct (Hl pre rows post H) as (pre' & es & S0 & sv & Hp & Hr).
    exists (x :: pre'), es, S0, sv. split; [subst pre; reflexivity|exact Hr].
Qed.

Lemma saves_fresh_extract_append_save (es S0 : list text) (rows : list row) (sv : list text)
    (l : list event) :
  (forall r, In r rows -> ~ In (r_email r) S0 /\ In (r_email r) sv) ->
  saves_fresh l -> saves_fresh (EvExtract es S0 :: EvAppend rows sv :: EvSave rows :: l).
Proof.
  intros Hr Hl pre rows' post H.
  destruct pre as [|a [|b [|c pre]]]; simpl in H.
  - inversion H.
  - inversion H.
  - inversion H; subst. exists [], es, S0, sv. split; [reflexivity|exact Hr].
  - injection H as Ha Hb Hc H. subst a b c.
    destruct (Hl pre rows' post H) as (pre' & es' & S1 & sv' & Hp & Hr').
    exists (EvExtract es S0 :: EvAppend rows sv :: EvSave rows :: pre'), es', S1, sv'.
    split; [subst pre; reflexivity|exact Hr'].
Qed.

Ltac saves_trace :=
  repeat first
    [ apply saves_fresh_nil
    | apply saves_fresh_extract_append_save; [assumption|]
    | apply saves_fresh_cons; [intros ? ?; discriminate|] ].

Lemma after_detect_saves (q : text) (st : sess) (o : iter_obs) :
  saves_fresh (fst (after_detect q st o)).
Proof.
  unfold after_detect. cbv zeta.
  destruct (present (o_captcha o) && solved (o_captcha o) && negb (o_wait_ok o)).
  { simpl. exact saves_fresh_nil. }
  remember (extractEmailsFromPage (o_body o)) as emails eqn:He.
  remember (filter (fun e => negb (mem e (s_collected st))) emails) as ne eqn:Hne.
  destruct (fold_set_add ne (s_collected st)) as [Hinc Hin].
  remember (fold_left (fun acc e => set_add e acc) ne (s_collected st)) as C' eqn:HC.
  assert (Hrows : forall r, In r (mk_rows q (o_clock o) 0 ne) ->
                   ~ In (r_email r) (s_collected st) /\ In (r_email r) C').
  { intros r Hr. destruct (mk_rows_emails q (o_clock o) 0 ne) as [Hm _].
    assert (Hr' : In (r_email r) ne) by (rewrite <- Hm; apply in_map, Hr).
    split; [|apply Hin, Hr'].
    rewrite Hne in Hr'. apply filter_In in Hr' as [_ Hf].
    apply negb_true_iff in Hf. apply mem_false, Hf. }
  set (S0 := s_collected st) in *.
  destruct (present (o_captcha o) && solved (o_captcha o)), (o_has_next o), ne as [|x xs];
    simpl; saves_trace.
Qed.

Lemma iter_step_saves (q : text) (st : sess) (o : iter_obs) :
  saves_fresh (fst (iter_step q st o)).
Proof.
  rewrite iter_step_unfold. cbn [fst].
  apply saves_fresh_cons; [intros ? ?; discriminate|].
  destruct (unresolved o); [destruct (3 <=? S (s_consec st))|];
    [exact saves_fresh_nil|apply after_detect_saves|apply after_detect_saves].
Qed.

Lemma session_saves (q : text) (st : sess) (os : list iter_obs) :
  saves_fresh (fst (session_loop q st os)).
Proof.
  revert st; induction os as [|o os IH]; intros st; simpl; [exact saves_fresh_nil|].
  pose proof (iter_step_saves q st o) as A.
  destruct (iter_step q st o) as [e1 [st'|why]]; simpl in *; [|exact A].
  specialize (IH st'). destruct (session_loop q st' os) as [e2 f]. simpl in *.
  apply saves_fresh_app; assumption.
Qed.

Lemma iter_step_seen (q : text) (st : sess) (o : iter_obs) :
  handoffs_fresh (fst (iter_step q st o)) /\
  ForallOrdPairs (@incl text) (snapshots (fst (iter_step q st o))) /\
  Forall (incl (s_collected st)) (snapshots (fst (iter_step q st o))) /\
  match snd (iter_step q st o) with
  | Continue st' => Forall (fun sv => incl sv (s_collected st')) (snapshots (fst (iter_step q st o)))
                    /\ incl (s_collected st) (s_collected st')
  | Stop _ => True
  end.
Proof.
  rewrite iter_step_unfold. cbn [fst snd].
  destruct (unresolved o); [destruct (3 <=? S (s_consec st))|].
  - simpl. split; [apply handoffs_fresh_cons; [intros ? ? ?; discriminate|apply handoffs_fresh_nil]|].
    repeat split; constructor.
  - match goal with |- context [after_detect q ?s o] =>
      destruct (after_detect_seen q s o) as [A [B [C D]]]; destruct (after_detect q s o) as [evs r] end.
    simpl in *. split; [apply handoffs_fresh_cons; [intros ? ? ?; discriminate|exact A]|].
    split; [exact B|]. split; [exact C|]. exact D.
  - match goal with |- context [after_detect q ?s o] =>
      destruct (after_detect_seen q s o) as [A [B [C D]]]; destruct (after_detect q s o) as [evs r] end.
    simpl in *. split; [apply handoffs_fresh_cons; [intros ? ? ?; discriminate|exact A]|].
    split; [exact B|]. split; [exact C|]. exact D.
Qed.

Lemma seen_set_core (q : text) (st : sess) (os : list iter_obs) :
  handoffs_fresh (fst (session_loop q st os)) /\
  ForallOrdPairs (@incl text) (snapshots (fst (session_loop q st os))) /\
  Forall (incl (s_collected st)) (snapshots (fst (session_loop q st os))) /\
  match snd (session_loop q st os) with
  | Running st' => incl (s_collected st) (s_collected st')
  | Ended _ => True
  end.
Proof.
  revert st; induction os as [|o os IH]; intros st; simpl.
  - split; [apply handoffs_fresh_nil|]. repeat split; [constructor|constructor|apply incl_refl].
  - destruct (iter_step_seen q st o) as [A [B [C D]]].
    destruct (iter_step q st o) as [e1 [st'|why]]; simpl in *; [|repeat split; assumption].
    destruct D as [D1 D2].
    destruct (IH st') as [A' [B' [C' D']]].
    destruct (session_loop q st' os) as [e2 f]. simpl in *.
    split; [apply handoffs_fresh_app; assumption|].
    rewrite snapshots_app. split; [|split].
    + apply ForallOrdPairs_app; [exact B|exact B'|].
      intros x y Hx Hy. eapply incl_tran.
      * rewrite Forall_forall in D1. apply D1, Hx.
      * rewrite Forall_forall in C'. apply C', Hy.
    + apply Forall_app. split; [exact C|].
      eapply Forall_impl; [|exact C']. intros sv Hs. eapply incl_tran; eassumption.
    + destruct f; [eapply incl_tran; eassumption|exact I].
Qed.

(** C6.  Along a session, [appendToCSV] only receives rows whose identity
    was not in the seen-records set at the extraction that immediately
    precedes the call, and which are in the set when the call is made (the
    set is updated before the handoff); [saveToSupabase] only receives the
    batch just handed to [appendToCSV], right after it, so the same holds
    for it; the values the set takes along the session only grow. *)
Theorem seen_set_invariant (q : text) (st : sess) (os : list iter_obs) :
  handoffs_fresh (fst (session_loop q st os)) /\
  saves_fresh (fst (session_loop q st os)) /\
  ForallOrdPairs (@incl text) (snapshots (fst (session_loop q st os))) /\
  Forall (incl (s_collected st)) (snapshots (fst (session_loop q st os))) /\
  match snd (session_loop q st os) with
  | Running st' => incl (s_collected st) (s_collected st')
  | Ended _ => True
  end.
Proof.
  destruct (seen_set_core q st os) as [A B].
  split; [exact A|split; [apply session_saves|exact B]].
Qed.

(** ** Records handed to the persistence collaborators *)

Lemma appended_app (a b : list event) : appended (a ++ b) = appended a ++ appended b.
Proof. unfold appended. apply flat_map_app. Qed.

Lemma saved_app (a b : list event) : saved (a ++ b) = saved a ++ saved b.
Proof. unfold saved. apply flat_map_app. Qed.

Lemma mk_rows_batch_ok (q : text) (clock : nat -> text) (x : text) (xs : list text) :
  batch_ok q (mk_rows q clock 0 (x :: xs)).
Proof.
  split; [discriminate|]. split; [apply (mk_rows_emails q clock 0 (x :: xs))|].
  split; intros table; reflexivity.
Qed.

Lemma after_detect_batches (q : text) (st : sess) (o : iter_obs) :
  appended (fst (after_detect q st o)) = saved (fst (after_detect q st o)) /\
  Forall (batch_ok q) (appended (fst (after_detect q st o))).
Proof.
  unfold after_detect. cbv zeta.
  destruct (present (o_captcha o) && solved (o_captcha o) && negb (o_wait_ok o)).
  { simpl. split; [reflexivity|constructor]. }
  destruct (present (o_captcha o) && solved (o_captcha o)), (o_has_next o),
    (filter (fun e => negb (mem e (s_collected st))) (extractEmailsFromPage (o_body o))) as [|x xs];
    simpl; (split; [reflexivity|]);
    first [ apply Forall_nil | apply Forall_cons; [apply mk_rows_batch_ok|apply Forall_nil] ].
Qed.

Lemma iter_step_batches (q : text) (st : sess) (o : iter_obs) :
  appended (fst (iter_step q st o)) = saved (fst (iter_step q st o)) /\
  Forall (batch_ok q) (appended (fst (iter_step q st o))).
Proof.
  rewrite iter_step_unfold. cbn [fst].
  destruct (unresolved o); [destruct (3 <=? S (s_consec st))|];
    [simpl; split; [reflexivity|constructor]| |];
    match goal with |- context [after_detect q ?s o] => exact (after_detect_batches q s o) end.
Qed.

(** The batches handed to persistence in a session: the same batches, in
    the same order, go to [appendToCSV] and to [saveToSupabase], and each is
    non-empty and tagged with the session's query. *)
Lemma session_handoff_batches (q : text) (st : sess) (os : list iter_obs) :
  appended (fst (session_loop q st os)) = saved (fst (session_loop q st os)) /\
  Forall (batch_ok q) (appended (fst (session_loop q st os))).
Proof.
  revert st; induction os as [|o os IH]; intros st; simpl; [split; [reflexivity|constructor]|].
  destruct (iter_step_batches q st o) as [A B].
  destruct (iter_step q st o) as [e1 [st'|why]]; simpl in *; [|split; assumption].
  destruct (IH st') as [A' B']. destruct (session_loop q st' os) as [e2 f]. simpl in *.
  rewrite appended_app, saved_app, A, A'. split; [reflexivity|].
  rewrite <- A, <- A'. apply Forall_app. split; assumption.
Qed.

(** ** The token solver *)

Lemma mem_app_single (t x : text) (acc : list text) :
  mem t (acc ++ [x]) = mem t acc || text_eqb t x.
Proof. unfold mem. rewrite existsb_app. simpl. rewrite orb_false_r. reflexivity. Qed.

Lemma mem_true (e : text) (l : list text) : mem e l = true <-> In e l.
Proof.
  unfold mem. rewrite existsb_exists. split.
  - intros [x [Hx He]]. apply text_eqb_true in He. subst. exact Hx.
  - intros H. exists e. split; [exact H|apply text_eqb_true; reflexivity].
Qed.

Lemma mem_self (e : text) (l : list text) : mem e (e :: l) = true.
Proof. apply mem_true. left. reflexivity. Qed.

Lemma fold_add_distinct (l acc : list text) :
  NoDup l ->
  fold_left (fun acc t => if mem t acc then acc else acc ++ [t]) l acc =
  acc ++ filter (fun t => negb (mem t acc)) l.
Proof.
  revert acc; induction l as [|x l IH]; intros acc Hnd; simpl; [rewrite app_nil_r; reflexivity|].
  inversion Hnd as [|? ? Hx Hl]; subst.
  destruct (mem x acc) eqn:E; simpl.
  - apply IH, Hl.
  - rewrite IH by exact Hl. rewrite <- app_assoc. simpl. f_equal. f_equal.
    apply filter_ext_in. intros t Ht. rewrite mem_app_single.
    destruct (text_eqb t x) eqn:Ex; [apply text_eqb_true in Ex; subst; contradiction|].
    rewrite orb_false_r. reflexivity.
Qed.

Lemma fallback_types_nodup : NoDup fallback_types.
Proof.
  unfold fallback_types. repeat constructor; simpl; intuition discriminate.
Qed.

Lemma posted_app (a b : list sev) : posted (a ++ b) = posted a ++ posted b.
Proof. unfold posted. apply flat_map_app. Qed.

Lemma posted_poll (n : nat) (id : jval) (fs : list fetch_result) :
  posted (fst (fst (poll n id fs))) = [].
Proof.
  revert fs; induction n as [|n IH]; intros fs; simpl; [reflexivity|].
  destruct (next_fetch fs) as [f fs1].
  specialize (IH fs1). destruct (poll n id fs1) as [[e r] fs2]. simpl in IH.
  destruct f as [|res]; simpl; rewrite ?posted_app, ?IH; [reflexivity|].
  destruct (negb (res_ok res)); simpl; rewrite ?posted_app, ?IH.
  - destruct (status res =? 429); reflexivity.
  - destruct (truthy _); [reflexivity|]. destruct (truthy _); [reflexivity|].
    destruct (j_data _) as [[[|c s]|b]|]; simpl; rewrite ?posted_app, ?IH; reflexivity.
Qed.

Lemma try_types_posted_prefix (ts : list text) (fs : list fetch_result) :
  exists rest, ts = posted (fst (try_types ts fs)) ++ rest.
Proof.
  revert fs; induction ts as [|t ts IH]; intros fs; cbn [try_types]; [exists []; reflexivity|].
  destruct (next_fetch fs) as [f fs1].
  assert (Hstep : forall fs' (pre : list sev), posted pre = [] ->
            exists rest, t :: ts = posted (EPost t (text_eqb t recaptcha3) :: pre ++ fst (try_types ts fs')) ++ rest).
  { intros fs' pre Hp. destruct (IH fs') as [rest Hr]. exists rest.
    simpl. rewrite posted_app, Hp. simpl. f_equal. exact Hr. }
  destruct f as [|res].
  - destruct (Hstep fs1 [] eq_refl) as [rest Hr].
    destruct (try_types ts fs1) as [e r]. exists rest. exact Hr.
  - destruct (negb (res_ok res)).
    + destruct ((status res =? 400) && invalid_type (body res)).
      * destruct (Hstep fs1 [] eq_refl) as [rest Hr].
        destruct (try_types ts fs1) as [e r]. exists rest. exact Hr.
      * destruct (Hstep fs1 (if status res =? 429 then [ESleep 1000] else []))
          as [rest Hr]; [destruct (status res =? 429); reflexivity|].
        destruct (try_types ts fs1) as [e r]. exists rest. exact Hr.
    + destruct (truthy (j_token (data_of res))); [exists ts; reflexivity|].
      destruct (first_truthy _) as [id|].
      * pose proof (posted_poll 20 id fs1) as Hp.
        destruct (poll 20 id fs1) as [[e1 [tok|]] fs2]; simpl in Hp.
        -- exists ts. simpl. rewrite Hp. reflexivity.
        -- destruct (Hstep fs2 e1 Hp) as [rest Hr].
           destruct (try_types ts fs2) as [e r]. exists rest. exact Hr.
      * destruct (Hstep fs1 [] eq_refl) as [rest Hr].
        destruct (try_types ts fs1) as [e r]. exists rest. exact Hr.
Qed.

Lemma try_types_all_failed (ts : list text) (fs : list fetch_result) :
  Forall (fun f => not_ok f = true) fs -> snd (try_types ts fs) = None.
Proof.
  revert fs; induction ts as [|t ts IH]; intros fs Hfs; cbn [try_types]; [reflexivity|].
  assert (Hn : not_ok (fst (next_fetch fs)) = true /\
               Forall (fun f => not_ok f = true) (snd (next_fetch fs))).
  { destruct fs as [|f fs']; simpl; [split; [reflexivity|constructor]|].
    inversion Hfs; subst; split; assumption. }
  destruct (next_fetch fs) as [f fs1]. simpl in Hn. destruct Hn as [Hf Hfs1].
  specialize (IH fs1 Hfs1).
  destruct f as [|res].
  - destruct (try_types ts fs1) as [e r]. exact IH.
  - simpl in Hf. rewrite Hf.
    destruct ((status res =? 400) && invalid_type (body res));
      destruct (try_types ts fs1) as [e r]; exact IH.
Qed.

Lemma skipn_next_fetch (k : nat) (fs : list fetch_result) :
  skipn (S k) fs = skipn k (snd (next_fetch fs)).
Proof. destruct fs; simpl; rewrite ?skipn_nil; reflexivity. Qed.

Lemma exchanges_app (a b : list sev) (fs : list fetch_result) :
  exchanges (a ++ b) fs = exchanges a fs ++ exchanges b (skipn (requests a) fs).
Proof.
  unfold requests. revert fs; induction a as [|e a IH]; intros fs; [reflexivity|].
  destruct e; cbn [app exchanges filter is_request length]; rewrite IH;
    rewrite ?skipn_next_fetch; reflexivity.
Qed.

Lemma delivers_cons (x : sev * fetch_result) (xs : list (sev * fetch_result)) (r : option jval) :
  carries x = None -> delivers xs r -> delivers (x :: xs) r.
Proof.
  intros Hx. destruct r as [v|]; simpl.
  - intros (pre & y & -> & Hy & Hpre). exists (x :: pre), y. split; [reflexivity|].
    split; [exact Hy|constructor; assumption].
  - intros Hxs. constructor; assumption.
Qed.

Lemma delivers_last (x : sev * fetch_result) (v : option jval) :
  carries x = v -> delivers [x] v.
Proof.
  intros Hx. destruct v as [v|]; simpl.
  - exists [], x. repeat split; [exact Hx|constructor].
  - constructor; [exact Hx|constructor].
Qed.

Lemma poll_exchanges (n : nat) (id : jval) (fs : list fetch_result) :
  snd (poll n id fs) = skipn (requests (fst (fst (poll n id fs)))) fs /\
  delivers (exchanges (fst (fst (poll n id fs))) fs) (snd (fst (poll n id fs))).
Proof.
  revert fs; induction n as [|n IH]; intros fs; [split; [reflexivity|constructor]|].
  cbn [poll].
  pose proof (skipn_next_fetch 0 fs) as Hs0.
  assert (Hsk : forall l, skipn (requests (ESleep 1500 :: EGet id :: l)) fs =
                            skipn (requests l) (snd (next_fetch fs)))
    by (intros l; apply skipn_next_fetch).
  assert (Hex : forall l, exchanges (ESleep 1500 :: EGet id :: l) fs =
                 (EGet id, fst (next_fetch fs)) :: exchanges l (snd (next_fetch fs)))
    by reflexivity.
  destruct (next_fetch fs) as [f fs1]. cbn [fst snd] in *.
  specialize (IH fs1). destruct (poll n id fs1) as [[e r] fs2]. cbn [fst snd] in IH.
  destruct IH as [Hfs2 IHr].
  assert (Hcont : forall w, requests w = 0 -> (forall l, exchanges (w ++ l) fs1 = exchanges l fs1) ->
            carries (EGet id, f) = None ->
            fs2 = skipn (requests ([ESleep 1500; EGet id] ++ w ++ e)) fs /\
            delivers (exchanges ([ESleep 1500; EGet id] ++ w ++ e) fs) r).
  { intros w Hw Hwx Hc. cbn [app]. rewrite Hsk, Hex, Hwx.
    unfold requests in Hw |- *. rewrite filter_app, length_app, Hw.
    split; [exact Hfs2|]. apply delivers_cons; assumption. }
  assert (Hstop : forall v, carries (EGet id, f) = v ->
            fs1 = skipn (requests [ESleep 1500; EGet id]) fs /\
            delivers (exchanges [ESleep 1500; EGet id] fs) v).
  { intros v Hv. split; [symmetry; exact Hs0|]. rewrite Hex. apply delivers_last, Hv. }
  destruct f as [|res].
  - apply Hcont; reflexivity.
  - destruct (res_ok res) eqn:Hok; cbn [negb].
    + destruct (truthy (j_token (data_of res))) eqn:Ht.
      { apply Hstop. simpl. rewrite Hok, Ht. reflexivity. }
      destruct (truthy (j_solution (data_of res))) eqn:Hsol.
      { apply Hstop. simpl. rewrite Hok, Ht, Hsol. reflexivity. }
      destruct (j_data (data_of res)) as [[[|c s]|b]|] eqn:Hd;
        (apply Hstop + apply Hcont); simpl; rewrite ?Hok, ?Ht, ?Hsol, ?Hd; reflexivity.
    + apply Hcont; [destruct (status res =? 429); reflexivity
                   |destruct (status res =? 429); reflexivity
                   |simpl; rewrite Hok; reflexivity].
Qed.

Lemma delivers_app (a b : list (sev * fetch_result)) (r : option jval) :
  Forall (fun y => carries y = None) a -> delivers b r -> delivers (a ++ b) r.
Proof.
  induction a as [|x a IH]; intros Ha Hb; [exact Hb|].
  inversion Ha; subst. apply delivers_cons; auto.
Qed.

Lemma try_types_exchanges (ts : list text) (fs : list fetch_result) :
  delivers (exchanges (fst (try_types ts fs)) fs) (snd (try_types ts fs)) /\
  (snd (try_types ts fs) = None -> posted (fst (try_types ts fs)) = ts).
Proof.
  revert fs; induction ts as [|t ts IH]; intros fs; [split; [constructor|reflexivity]|].
  cbn [try_types].
  set (post := EPost t (text_eqb t recaptcha3)).
  assert (Hex : forall l, exchanges (post :: l) fs =
                 (post, fst (next_fetch fs)) :: exchanges l (snd (next_fetch fs)))
    by reflexivity.
  destruct (next_fetch fs) as [f fs1]. cbn [fst snd] in Hex.
  assert (Hcont : forall w fs', Forall (fun y => carries y = None) (exchanges w fs1) ->
            fs' = skipn (requests w) fs1 -> posted w = [] -> carries (post, f) = None ->
            delivers (exchanges (post :: w ++ fst (try_types ts fs')) fs) (snd (try_types ts fs')) /\
            (snd (try_types ts fs') = None -> posted (post :: w ++ fst (try_types ts fs')) = t :: ts)).
  { intros w fs' Hw -> Hp Hc. destruct (IH (skipn (requests w) fs1)) as [IH1 IH2]. split.
    - rewrite Hex. apply delivers_cons; [exact Hc|]. rewrite exchanges_app.
      apply delivers_app; assumption.
    - intros Hr. change (posted (post :: ?l)) with (t :: posted l).
      rewrite posted_app, Hp, (IH2 Hr). reflexivity. }
  destruct f as [|res].
  - destruct (Hcont [] fs1 ltac:(constructor) eq_refl eq_refl eq_refl) as [H1 H2].
    destruct (try_types ts fs1) as [e r]. split; [exact H1|exact H2].
  - destruct (res_ok res) eqn:Hok; cbn [negb].
    + destruct (truthy (j_token (data_of res))) eqn:Ht.
      { cbn [fst snd]. split; [|intros Hn; rewrite Hn in Ht; discriminate].
        rewrite Hex. apply delivers_last. unfold post; simpl; rewrite Hok, Ht; reflexivity. }
      assert (Hc : carries (post, FetchResp res) = None)
        by (unfold post; simpl; rewrite Hok, Ht; reflexivity).
      destruct (first_truthy _) as [id|].
      * pose proof (poll_exchanges 20 id fs1) as [Hfs2 Hdel].
        pose proof (posted_poll 20 id fs1) as Hp.
        destruct (poll 20 id fs1) as [[e1 r1] fs2]. cbn [fst snd] in *.
        destruct r1 as [tok|].
        -- cbn [fst snd]. split; [|discriminate]. rewrite Hex. apply delivers_cons; [exact Hc|exact Hdel].
        -- destruct (Hcont e1 fs2 Hdel Hfs2 Hp Hc) as [H1 H2].
           destruct (try_types ts fs2) as [e r]. split; [exact H1|exact H2].
      * destruct (Hcont [] fs1 ltac:(constructor) eq_refl eq_refl Hc) as [H1 H2].
        destruct (try_types ts fs1) as [e r]. split; [exact H1|exact H2].
    + assert (Hc : carries (post, FetchResp res) = None)
        by (unfold post; simpl; rewrite Hok; reflexivity).
      destruct ((status res =? 400) && invalid_type (body res)).
      * destruct (Hcont [] fs1 ltac:(constructor) eq_refl eq_refl Hc) as [H1 H2].
        destruct (try_types ts fs1) as [e r]. split; [exact H1|exact H2].
      * destruct (Hcont (if status res =? 429 then [ESleep 1000] else []) fs1)
          as [H1 H2]; [destruct (status res =? 429); constructor
                      |destruct (status res =? 429); reflexivity
                      |destruct (status res =? 429); reflexivity|exact Hc|].
        destruct (try_types ts fs1) as [e r]. split; [exact H1|exact H2].
Qed.

(** C7.  The solver tries the challenge types in priority order: the hint
    first when present, then the fallback sequence without the hint, no
    type twice, and its POST requests follow a prefix of that order; it
    returns the token of the first successful response that carries one;
    a failed response other than 429 (in particular a 400 whose body says
    "Invalid type") moves on to the next type with no wait; a 429 response
    waits 1000 ms before the next type; when every answer of the
    service is an error, the solver returns no token (it never throws);
    and, for any answers of the service, pairing each request (the POST
    of a type or a poll GET) with the answer it received: when the solver
    returns a token, it is the one delivered by the last exchange (a POST
    token, or a poll's token, solution or string data) and no earlier
    exchange delivered one; when it returns none, no exchange delivered a
    token and every type was tried. *)
Theorem token_solver_behaviour (typeHint : option text) :
  solver_types typeHint =
    hint_list typeHint ++ filter (fun t => negb (mem t (hint_list typeHint))) fallback_types /\
  NoDup (solver_types typeHint) /\
  (forall key fs, key <> [] ->
     exists rest, solver_types typeHint = posted (fst (solveRecaptchaToken key typeHint fs)) ++ rest) /\
  (forall t ts res fs, res_ok res = true -> truthy (j_token (data_of res)) = true ->
     try_types (t :: ts) (FetchResp res :: fs) =
     ([EPost t (text_eqb t recaptcha3)], j_token (data_of res))) /\
  (forall t ts res fs, res_ok res = false -> status res <> 429 ->
     try_types (t :: ts) (FetchResp res :: fs) =
     (EPost t (text_eqb t recaptcha3) :: fst (try_types ts fs), snd (try_types ts fs))) /\
  (forall t ts res fs, status res = 429 ->
     try_types (t :: ts) (FetchResp res :: fs) =
     (EPost t (text_eqb t recaptcha3) :: ESleep 1000 :: fst (try_types ts fs), snd (try_types ts fs))) /\
  (forall key fs, Forall (fun f => not_ok f = true) fs ->
     snd (solveRecaptchaToken key typeHint fs) = None) /\
  (forall key fs, key <> [] ->
     match snd (solveRecaptchaToken key typeHint fs) with
     | Some v => exists pre x,
         exchanges (fst (solveRecaptchaToken key typeHint fs)) fs = pre ++ [x] /\
         carries x = Some v /\ Forall (fun y => carries y = None) pre
     | None =>
         Forall (fun y => carries y = None) (exchanges (fst (solveRecaptchaToken key typeHint fs)) fs) /\
         posted (fst (solveRecaptchaToken key typeHint fs)) = solver_types typeHint
     end).
Proof.
  assert (Hform : solver_types typeHint =
    hint_list typeHint ++ filter (fun t => negb (mem t (hint_list typeHint))) fallback_types).
  { unfold solver_types. apply fold_add_distinct, fallback_types_nodup. }
  split; [exact Hform|]. split.
  { rewrite Hform. unfold hint_list.
    assert (Hf : forall acc, NoDup (filter (fun t => negb (mem t acc)) fallback_types))
      by (intros acc; apply NoDup_filter, fallback_types_nodup).
    destruct typeHint as [[|c h]|]; [apply Hf| |apply Hf].
    cbn [app]. constructor; [|apply Hf].
    intros Hin. apply filter_In in Hin as [_ Hm].
    rewrite mem_self in Hm. discriminate. }
  split.
  { intros key fs Hk. unfold solveRecaptchaToken.
    destruct key; [congruence|]. apply try_types_posted_prefix. }
  split.
  { intros t ts res fs Hok Htok. cbn [try_types next_fetch].
    rewrite Hok. cbn [negb]. rewrite Htok. reflexivity. }
  split.
  { intros t ts res fs Hok H429. cbn [try_types next_fetch]. rewrite Hok. cbn [negb].
    apply Nat.eqb_neq in H429. rewrite H429.
    destruct ((status res =? 400) && invalid_type (body res));
      destruct (try_types ts fs); reflexivity. }
  split.
  { intros t ts res fs H429. cbn [try_types next_fetch].
    replace (res_ok res) with false by (unfold res_ok; rewrite H429; reflexivity).
    cbn [negb]. rewrite H429. cbn. destruct (try_types ts fs); reflexivity. }
  split.
  { intros key fs Hfs. unfold solveRecaptchaToken.
    destruct key; [reflexivity|]. apply try_types_all_failed, Hfs. }
  intros key fs Hk. unfold solveRecaptchaToken. destruct key as [|c key]; [congruence|].
  destruct (try_types_exchanges (solver_types typeHint) fs) as [Hd Hp].
  destruct (snd (try_types (solver_types typeHint) fs)) as [v|] eqn:Hr;
    try rewrite Hr in Hd; try rewrite Hr in Hp.
  - exact Hd.
  - split; [exact Hd|exact (Hp eq_refl)].
Qed.

Lemma token_solver_behaviour_witness :
  let invalid := {| status := 400; body := lit "Invalid type"; json := None |} in
  let tok := {| status := 200; body := lit "{token:T}";
                json := Some {| j_token := Some (JStr (lit "T")); j_id := None; j_data := None;
                                j_task := None; j_solution := None |} |} in
  try_types [lit "A"; lit "B"] [FetchResp invalid; FetchResp tok] =
  ([EPost (lit "A") false; EPost (lit "B") false], Some (JStr (lit "T"))).
Proof.
  intros invalid tok.
  destruct (token_solver_behaviour None) as [_ [_ [_ [H1 [H2 _]]]]].
  rewrite (H2 (lit "A") [lit "B"] invalid [FetchResp tok]); [| reflexivity | discriminate].
  rewrite (H1 (lit "B") [] tok []); reflexivity.
Defined.

Lemma iteration_error_scope_witness :
  let env := {| e_context_ok := true; e_page_ok := true;
                e_iters := [mk_obs true true false sample_body true] |} in
  snd (runQuery query0 env) = Resolved /\ count_acquire (fst (runQuery query0 env)) = 1 /\
  count_release (fst (runQuery query0 env)) = 1.
Proof.
  intros env.
  apply (proj2 (proj2 (iteration_error_scope query0)) env);
    [reflexivity | reflexivity | vm_compute; reflexivity].
Defined.

(** When the context and the page open and the query loop ends, the session
    acquires and releases the context exactly once. *)
Lemma runQuery_releases_on_end (q : text) (env : session_env) why :
  e_context_ok env = true -> e_page_ok env = true ->
  snd (session_loop q session_init (e_iters env)) = Ended why ->
  count_acquire (fst (runQuery q env)) = 1 /\ count_release (fst (runQuery q env)) = 1.
Proof.
  intros Hc Hp He. unfold runQuery. rewrite Hc, Hp. simpl negb. cbv iota.
  pose proof (session_loop_no_ctx q session_init (e_iters env)) as [A R].
  destruct (session_loop q session_init (e_iters env)) as [evs fin]. simpl in He, A, R. subst fin.
  simpl. rewrite count_acquire_app, count_release_app, A, R. simpl. split; reflexivity.
Qed.

(** C9 (failing input).  [context.newPage()] runs after the context is
    created but before the [try] whose [finally] closes it: when opening the
    page fails, the session rejects with the context acquired and never
    released. *)
Theorem newPage_failure_keeps_context :
  let env := {| e_context_ok := true; e_page_ok := false; e_iters := [] |} in
  runQuery query0 env = ([EvAcquire], Rejected) /\
  count_acquire (fst (runQuery query0 env)) = 1 /\
  count_release (fst (runQuery query0 env)) = 0.
Proof. vm_compute. repeat split. Qed.

Lemma in_firstn_skipn (x : text) (n m : nat) (l : list text) :
  In x (firstn n (skipn m l)) -> In x l.
Proof.
  intros H.
  assert (H1 : In x (skipn m l)).
  { rewrite <- (firstn_skipn n (skipn m l)). apply in_or_app. left. exact H. }
  rewrite <- (firstn_skipn m l). apply in_or_app. right. exact H1.
Qed.

Lemma chunked_nil_inv (C : nat) (bs : list (list text)) : chunked C bs [] -> bs = [].
Proof.
  intros H. inversion H as [| b Hb E | b bs' rest Hl Hr Hc E]; [reflexivity | |].
  - subst. simpl in Hb. lia.
  - destruct b; destruct rest; simpl in *; congruence.
Qed.

Lemma batch_loop_waits (C : nat) (qs : list text) (run : text -> run_result) :
  forall f idx pre b1 b2 post,
  fst (batch_loop f idx C qs run) = pre ++ b1 :: b2 :: post ->
  Forall (fun q => settled (run q) = true) b1.
Proof.
  induction f as [|f IH]; intros idx pre b1 b2 post H.
  - simpl in H. destruct pre; discriminate.
  - cbn [batch_loop] in H. destruct (idx <? length qs).
    + destruct (forallb (fun q => settled (run q)) (firstn C (skipn idx qs))) eqn:Hall.
      * destruct (batch_loop f (idx + C) C qs run) as [bs fin] eqn:E. simpl in H.
        destruct pre as [|p pre]; simpl in H; injection H as H1 H2.
        -- subst b1. apply Forall_forall. intros x Hx. rewrite forallb_forall in Hall.
           exact (Hall x Hx).
        -- apply (IH (idx + C) pre b1 b2 post). rewrite E. exact H2.
      * simpl in H. destruct pre as [|p [|p' pre]]; discriminate.
    + simpl in H. destruct pre; discriminate.
Qed.

Lemma batch_loop_chunks (C : nat) (qs : list text) (run : text -> run_result) :
  1 <= C -> Forall (fun q => settled (run q) = true) qs ->
  forall f idx, length qs - idx < f ->
  snd (batch_loop f idx C qs run) = true /\ chunked C (fst (batch_loop f idx C qs run)) (skipn idx qs).
Proof.
  intros HC Hs. induction f as [|f IH]; intros idx Hf; [lia|].
  cbn [batch_loop]. destruct (idx <? length qs) eqn:Hi.
  - apply Nat.ltb_lt in Hi.
    replace (forallb (fun q => settled (run q)) (firstn C (skipn idx qs))) with true.
    2:{ symmetry. apply forallb_forall. intros x Hx.
        rewrite Forall_forall in Hs. apply Hs. exact (in_firstn_skipn x C idx qs Hx). }
    destruct (IH (idx + C)) as [Hfin Hch]; [lia|].
    destruct (batch_loop f (idx + C) C qs run) as [bs fin]. simpl in Hfin, Hch |- *.
    split; [exact Hfin|].
    assert (Hsplit : skipn idx qs = firstn C (skipn idx qs) ++ skipn (idx + C) qs).
    { rewrite Nat.add_comm, <- skipn_skipn. symmetry. apply firstn_skipn. }
    destruct (Nat.lt_ge_cases (idx + C) (length qs)) as [Hlt | Hge].
    + rewrite Hsplit at 2. apply chunk_cons; [| |exact Hch].
      * rewrite length_firstn, length_skipn. lia.
      * intros E. apply (f_equal (@length text)) in E. rewrite length_skipn in E. simpl in E. lia.
    + rewrite (skipn_all2 qs Hge) in Hch. apply chunked_nil_inv in Hch. subst bs.
      rewrite (firstn_all2 (skipn idx qs)) by (rewrite length_skipn; lia).
      apply chunk_last. rewrite length_skipn. lia.
  - apply Nat.ltb_ge in Hi. simpl. split; [reflexivity|].
    rewrite (skipn_all2 qs Hi). apply chunk_nil.
Qed.

(** C8.  With a concurrency ceiling [C >= 1] the entry point starts the
    queries in consecutive slices of [C] (the last one holding the
    remaining 1 to [C] queries): each slice is launched as a whole, and the
    next slice is started only once every session of the current slice has
    settled, fulfilled or rejected.  When every session settles, all the
    queries are processed, in order, and the loop ends. *)
Theorem batches_partition (C : nat) (qs : list text) (run : text -> run_result) :
  1 <= C ->
  (forall pre b1 b2 post, fst (main_loop C qs run) = pre ++ b1 :: b2 :: post ->
     Forall (fun q => settled (run q) = true) b1) /\
  (Forall (fun q => settled (run q) = true) qs ->
     snd (main_loop C qs run) = true /\ chunked C (fst (main_loop C qs run)) qs /\
     concat (fst (main_loop C qs run)) = qs).
Proof.
  intros HC. unfold main_loop. split.
  - apply batch_loop_waits.
  - intros Hs. destruct (batch_loop_chunks C qs run HC Hs (S (length qs)) 0) as [Hfin Hch]; [lia|].
    simpl skipn in Hch. split; [exact Hfin|]. split; [exact Hch|].
    clear - Hch. induction Hch as [| b _ | b bs rest _ _ _ IH]; simpl.
    + reflexivity.
    + apply app_nil_r.
    + rewrite IH. reflexivity.
Qed.

Lemma batches_partition_witness :
  let qs := map lit ["a"; "b"; "c"; "d"; "e"; "f"; "g"]%string in
  let run := fun q : text => if text_eqb q (lit "b") then Rejected else Resolved in
  1 <= 3 /\ snd (main_loop 3 qs run) = true /\
  chunked 3 (fst (main_loop 3 qs run)) qs /\
  map (@length text) (fst (main_loop 3 qs run)) = [3; 3; 1].
Proof.
  intros qs run.
  assert (HC : 1 <= 3) by lia.
  destruct (proj2 (batches_partition 3 qs run HC)) as [Hf [Hc _]].
  { repeat constructor. }
  split; [exact HC|]. split; [exact Hf|]. split; [exact Hc|].
  vm_compute. reflexivity.
Defined.

Lemma text_eqb_false (a b : text) : text_eqb a b = false <-> a <> b.
Proof.
  unfold text_eqb. destruct (list_eq_dec ascii_dec a b); split; congruence.
Qed.

Lemma fs_write_same (fs : fsys) (p : text) (c : text) : fs_write fs p c p = Some c.
Proof. unfold fs_write. replace (text_eqb p p) with true by (symmetry; apply text_eqb_true; reflexivity). reflexivity. Qed.

Lemma fs_write_other (fs : fsys) (p p' : text) (c : text) : p' <> p -> fs_write fs p c p' = fs p'.
Proof. intros H. unfold fs_write. apply text_eqb_false in H. rewrite H. reflexivity. Qed.

Lemma ends_with_csv_length (s : text) : ends_with_csv s = true -> 4 <= length s.
Proof.
  induction s as [|c s IH]; simpl; [discriminate|].
  intros H. apply orb_prop in H as [H|H].
  - apply text_eqb_true in H. apply (f_equal (@length ascii)) in H.
    unfold toLowerCase in H. simpl in H. rewrite length_map in H. simpl. lia.
  - specialize (IH H). lia.
Qed.

Lemma backup_name_differs (out now : text) :
  ends_with_csv out = true -> backup_name out now <> out.
Proof.
  intros H E. unfold backup_name in E. rewrite H in E.
  apply (f_equal (@length ascii)) in E. apply ends_with_csv_length in H.
  rewrite !length_app, length_firstn in E. simpl in E. lia.
Qed.

(** C10 (amended).  At start-up: a missing output file is created holding
    only the header line; an existing file whose first line, once trimmed
    of surrounding white space, equals [email,query,timestamp] is left as it
    is; any other existing file is copied whole to the timestamped backup
    path (distinct from the output path, which ends in [.csv]) and the
    output file is overwritten with the header line.  No other file is
    touched. *)
Theorem ensure_header_spec (fs : fsys) (out now : text) :
  (fs out = None ->
     ensure_header fs out now out = Some header_line /\
     forall p, p <> out -> ensure_header fs out now p = fs p) /\
  (forall c, fs out = Some c -> trim (first_line c) = csv_header ->
     forall p, ensure_header fs out now p = fs p) /\
  (forall c, fs out = Some c -> trim (first_line c) <> csv_header -> ends_with_csv out = true ->
     ensure_header fs out now out = Some header_line /\
     ensure_header fs out now (backup_name out now) = Some c /\
     forall p, p <> out -> p <> backup_name out now -> ensure_header fs out now p = fs p).
Proof.
  unfold ensure_header. split; [|split].
  - intros Hn. rewrite Hn. split; [apply fs_write_same|]. intros p Hp. apply fs_write_other, Hp.
  - intros c Hc Ht p. rewrite Hc. apply text_eqb_true in Ht. rewrite Ht. reflexivity.
  - intros c Hc Ht Hcsv. rewrite Hc. apply text_eqb_false in Ht. rewrite Ht.
    pose proof (backup_name_differs out now Hcsv) as Hd.
    split; [apply fs_write_same|]. split.
    + rewrite fs_write_other by exact Hd. apply fs_write_same.
    + intros p Hp Hb. rewrite !fs_write_other by assumption. reflexivity.
Qed.


Lemma ensure_header_spec_witness :
  let c := lit "email,timestamp" ++ [newline] ++ lit "a@b.io,2025" in
  let fs := fs_write (fun _ => None) sample_out c in
  ensure_header fs sample_out sample_now sample_out = Some header_line /\
  ensure_header fs sample_out sample_now (backup_name sample_out sample_now) = Some c.
Proof.
  intros c fs.
  destruct (proj2 (proj2 (ensure_header_spec fs sample_out sample_now)) c)
    as [H1 [H2 _]].
  - apply fs_write_same.
  - apply text_eqb_false. vm_compute. reflexivity.
  - vm_compute. reflexivity.
  - split; [exact H1 | exact H2].
Defined.

(** C10 (counterexample).  A first line with leading spaces is not exactly
    the header, yet the file is kept as it is and no backup is written. *)
Lemma padded_header_kept :
  let c := lit "  email,query,timestamp" ++ [newline] ++ lit "a@b.io,2025" in
  let fs := fs_write (fun _ => None) sample_out c in
  text_eqb (first_line c) csv_header = false /\
  ensure_header fs sample_out sample_now sample_out = Some c /\
  ensure_header fs sample_out sample_now (backup_name sample_out sample_now) = None.
Proof. vm_compute. repeat split. Qed.

(* ------------------------------------------------------------------ *)
(** ** Further properties of the code *)

Lemma escapeCsv_unfold (f : text) :
  escapeCsv f = if existsb csv_special f
                then dquote :: flat_map (fun c => if Ascii.eqb c dquote then [c; c] else [c]) f ++ [dquote]
                else f.
Proof. reflexivity. Qed.

Lemma csv_read_plain (f s fld : text) (recd : list text) :
  existsb csv_special f = false ->
  csv_read (f ++ s) false fld recd = csv_read s false (fld ++ f) recd.
Proof.
  revert fld. induction f as [|c f IH]; intros fld Hf.
  - rewrite app_nil_r. reflexivity.
  - simpl in Hf. apply orb_false_iff in Hf as [Hc Hf]. unfold csv_special in Hc.
    apply orb_false_iff in Hc as [Hc Hn]. apply orb_false_iff in Hc as [Hc Hq].
    cbn [app csv_read]. rewrite Hq, Hc, Hn. rewrite IH by exact Hf.
    rewrite <- app_assoc. reflexivity.
Qed.

Lemma csv_read_quoted (f : text) (c : ascii) (s fld : text) (recd : list text) :
  Ascii.eqb c dquote = false ->
  csv_read (flat_map (fun c => if Ascii.eqb c dquote then [c; c] else [c]) f ++ dquote :: c :: s)
    true fld recd = csv_read (c :: s) false (fld ++ f) recd.
Proof.
  intros Hc. revert fld. induction f as [|x f IH]; intros fld.
  - simpl. rewrite Hc, app_nil_r. reflexivity.
  - cbn [flat_map]. destruct (Ascii.eqb x dquote) eqn:Hx.
    + apply Ascii.eqb_eq in Hx. subst x. cbn [app csv_read].
      replace (Ascii.eqb dquote dquote) with true by (symmetry; apply Ascii.eqb_refl).
      rewrite IH, <- app_assoc. reflexivity.
    + cbn [app csv_read]. rewrite Hx, IH, <- app_assoc. reflexivity.
Qed.

Lemma csv_read_field (f : text) (c : ascii) (s : text) (recd : list text) :
  Ascii.eqb c dquote = false ->
  csv_read (escapeCsv f ++ c :: s) false [] recd = csv_read (c :: s) false f recd.
Proof.
  intros Hc. rewrite escapeCsv_unfold. destruct (existsb csv_special f) eqn:Hs.
  - cbn [app csv_read].
    replace (Ascii.eqb dquote dquote) with true by (symmetry; apply Ascii.eqb_refl).
    rewrite <- app_assoc. cbn [app]. apply csv_read_quoted, Hc.
  - apply csv_read_plain, Hs.
Qed.

Lemma csv_read_line (e t s : text) :
  csv_read (escapeCsv e ++ comma :: escapeCsv t ++ newline :: s) false [] [] =
  [e; t] :: csv_read s false [] [].
Proof.
  rewrite csv_read_field by reflexivity. cbn [csv_read].
  replace (Ascii.eqb comma dquote) with false by reflexivity.
  replace (Ascii.eqb comma comma) with true by reflexivity.
  rewrite csv_read_field by reflexivity. cbn [csv_read].
  replace (Ascii.eqb newline dquote) with false by reflexivity.
  replace (Ascii.eqb newline comma) with false by reflexivity.
  replace (Ascii.eqb newline newline) with true by reflexivity.
  reflexivity.
Qed.

Lemma join_lines_flat (ls : list text) :
  ls <> [] -> join_lines ls ++ [newline] = flat_map (fun l => l ++ [newline]) ls.
Proof.
  induction ls as [|l ls IH]; [congruence|]. intros _.
  destruct ls as [|l' ls]; [simpl; rewrite app_nil_r; reflexivity|].
  change (join_lines (l :: l' :: ls)) with (l ++ newline :: join_lines (l' :: ls)).
  rewrite <- app_assoc. cbn [app]. rewrite IH by discriminate.
  cbn [flat_map]. rewrite <- (app_assoc l [newline]). reflexivity.
Qed.

(** [appendToCSV] writes nothing for an empty batch; otherwise the text it
    appends reads back, under standard CSV quoting, as one record per row,
    in order, holding exactly the row's email and timestamp, whatever
    commas, quotes or line breaks they contain. *)
Lemma appendToCSV_read_rows (rows : list row) :
  rows <> [] -> exists c, appendToCSV rows = Some c /\
    csv_read c false [] [] = map (fun r => [r_email r; r_timestamp r]) rows.
Proof.
  destruct rows as [|r rows]; [congruence|]. intros _. unfold appendToCSV.
  eexists; split; [reflexivity|].
  rewrite join_lines_flat by discriminate.
  generalize (r :: rows) as l. clear. induction l as [|r l IH]; [reflexivity|].
  cbn [map flat_map]. rewrite <- !app_assoc. cbn [app].
  rewrite csv_read_line, IH. reflexivity.
Qed.

Theorem appendToCSV_reads_back (rows : list row) :
  match appendToCSV rows with
  | None => rows = []
  | Some c => csv_read c false [] [] = map (fun r => [r_email r; r_timestamp r]) rows
  end.
Proof.
  destruct rows as [|r rows]; [reflexivity|].
  destruct (appendToCSV_read_rows (r :: rows)) as (c & -> & H); [discriminate|exact H].
Qed.

Lemma csv_read_after_header (c : text) :
  csv_read (header_line ++ c) false [] [] =
  [lit "email"; lit "query"; lit "timestamp"] :: csv_read c false [] [].
Proof. reflexivity. Qed.

(** C1 (code bug).  The output file starts with the three-column header
    [email,query,timestamp], and every batch a session hands to persistence
    is a non-empty list of records [{email, query, timestamp}] carrying the
    session's query; but the text [appendToCSV] writes for a batch reads
    back, after the header, as one two-field record [email, timestamp] per
    row: the query is never written, and the timestamp lands in the
    [query] column. *)
Theorem session_csv_rows_drop_query (q : text) (st : sess) (os : list iter_obs) :
  csv_read header_line false [] [] = [[lit "email"; lit "query"; lit "timestamp"]] /\
  Forall (fun rows =>
      rows <> [] /\ Forall (fun r => r_query r = q) rows /\
      exists c, appendToCSV rows = Some c /\
        csv_read (header_line ++ c) false [] [] =
          [lit "email"; lit "query"; lit "timestamp"] ::
          map (fun r => [r_email r; r_timestamp r]) rows)
    (appended (fst (session_loop q st os))).
Proof.
  split; [reflexivity|].
  destruct (session_handoff_batches q st os) as [_ B].
  eapply Forall_impl; [|exact B]. intros rows (Hne & Hq & _).
  split; [exact Hne|split; [exact Hq|]].
  destruct (appendToCSV_read_rows rows Hne) as (c & Hc & Hr).
  exists c. split; [exact Hc|]. rewrite csv_read_after_header, Hr. reflexivity.
Qed.

Lemma span_fst_all (p : ascii -> bool) (s a : text) (c : ascii) (b : text) :
  span p s = (a, c :: b) -> span p a = (a, []) /\ p c = false.
Proof.
  revert a. induction s as [|d s IH]; intros a H; simpl in H; [discriminate|].
  destruct (p d) eqn:Hd.
  - destruct (span p s) as [a' b'] eqn:E. injection H as <- ->.
    destruct (IH a' eq_refl) as [H1 H2]. simpl. rewrite Hd, H1. split; [reflexivity|exact H2].
  - injection H as <- -> ->. split; [reflexivity|exact Hd].
Qed.

Lemma span_all_firstn (p : ascii -> bool) (x : text) (k : nat) :
  span p x = (x, []) -> span p (firstn k x) = (firstn k x, []).
Proof.
  revert k. induction x as [|c x IH]; intros k H; [destruct k; reflexivity|].
  destruct k as [|k]; [reflexivity|]. simpl in H |- *.
  destruct (p c); [|discriminate].
  destruct (span p x) as [a b] eqn:E. injection H as -> ->.
  rewrite (IH k eq_refl). reflexivity.
Qed.

Lemma span_firstn_fst (p : ascii -> bool) (x : text) (k : nat) :
  fst (span p (firstn k x)) = firstn k (fst (span p x)).
Proof.
  revert k. induction x as [|c x IH]; intros k; [destruct k; reflexivity|].
  destruct k as [|k]; [reflexivity|]. simpl.
  destruct (p c); [|reflexivity].
  specialize (IH k). destruct (span p (firstn k x)) as [a b].
  destruct (span p x) as [a' b']. simpl in *. rewrite IH. reflexivity.
Qed.

Lemma dom_end_gt (d : text) (i e : nat) : dom_end d i = Some e -> i < e.
Proof.
  revert i. induction d as [|c d IH]; intros i H; cbn [dom_end] in H; [discriminate|].
  destruct (dom_end d (S i)) as [e'|] eqn:E.
  - injection H as <-. specialize (IH _ E). lia.
  - destruct ((1 <=? i) && Ascii.eqb c "."); [|discriminate].
    destruct (2 <=? length (fst (span is_alpha d))); [|discriminate].
    injection H as <-. lia.
Qed.

Lemma dom_end_none_firstn (d : text) (i k : nat) :
  dom_end d i = None -> dom_end (firstn k d) i = None.
Proof.
  revert i k. induction d as [|c d IH]; intros i k H; [destruct k; reflexivity|].
  destruct k as [|k]; [reflexivity|]. cbn [dom_end firstn] in H |- *.
  destruct (dom_end d (S i)) eqn:E; [discriminate|].
  rewrite (IH _ k E).
  destruct ((1 <=? i) && Ascii.eqb c "."); [|reflexivity].
  rewrite span_firstn_fst, length_firstn.
  destruct (2 <=? length (fst (span is_alpha d))) eqn:L; [discriminate|].
  apply Nat.leb_gt in L. replace (2 <=? Nat.min k (length (fst (span is_alpha d)))) with false
    by (symmetry; apply Nat.leb_gt; lia). reflexivity.
Qed.

Lemma dom_end_firstn (d : text) (i e k : nat) :
  dom_end d i = Some e -> e - i <= k -> dom_end (firstn k d) i = Some e.
Proof.
  revert i k. induction d as [|c d IH]; intros i k H Hk; [discriminate|].
  pose proof (dom_end_gt _ _ _ H) as Hgt.
  destruct k as [|k]; [lia|]. cbn [dom_end firstn] in H |- *.
  destruct (dom_end d (S i)) as [e'|] eqn:E.
  - injection H as <-. rewrite (IH _ k E) by lia. reflexivity.
  - rewrite (dom_end_none_firstn _ _ k E).
    destruct ((1 <=? i) && Ascii.eqb c "."); [|discriminate].
    destruct (2 <=? length (fst (span is_alpha d))) eqn:L; [|discriminate].
    injection H as <-. rewrite span_firstn_fst, length_firstn.
    replace (Nat.min k (length (fst (span is_alpha d)))) with (length (fst (span is_alpha d)))
      by lia.
    rewrite L. reflexivity.
Qed.

(** A match starts at the head of the input, and is itself matched in full. *)
Lemma match_at_valid (s m r : text) :
  match_at s = Some (m, r) -> s = m ++ r /\ valid_address m = true.
Proof.
  unfold match_at. pose proof (span_app is_local s) as Hs.
  destruct (span is_local s) as [loc r1] eqn:E1; simpl in Hs.
  destruct loc as [|c0 loc]; [discriminate|].
  destruct r1 as [|at_ r2]; [discriminate|].
  destruct (Ascii.eqb at_ "@") eqn:Hat; [|discriminate].
  pose proof (span_app is_dom r2) as Hr.
  destruct (span is_dom r2) as [d r3] eqn:E2; simpl in Hr.
  destruct (dom_end d 0) as [e|] eqn:E3; [|discriminate].
  intros H; injection H as <- <-.
  apply Ascii.eqb_eq in Hat. subst at_.
  split.
  - rewrite Hs, Hr. rewrite <- (firstn_skipn e d) at 1.
    cbn [app]. rewrite <- !app_assoc. reflexivity.
  - destruct (span_fst_all _ _ _ _ _ E1) as [Hloc Hnat].
    assert (Hd : span is_dom d = (d, [])).
    { assert (span is_dom (d ++ r3) = (d, r3)) by (rewrite <- Hr; exact E2).
      clear - H. revert H. induction d as [|c d IH]; intros H; [reflexivity|].
      simpl in H |- *. destruct (is_dom c); [|discriminate].
      destruct (span is_dom (d ++ r3)) as [a b]. injection H as Ha Hb.
      rewrite IH; [reflexivity|]. rewrite Ha, Hb. reflexivity. }
    unfold valid_address, match_at.
    pose proof (span_app_all _ _ (firstn e d) _ Hloc Hnat) as Hl. cbn [app] in Hl.
    rewrite Hl. cbn iota beta. rewrite Ascii.eqb_refl.
    rewrite (span_all_firstn _ _ e Hd).
    rewrite (dom_end_firstn _ _ _ e E3) by lia.
    rewrite firstn_firstn, Nat.min_id, skipn_all2 by (rewrite length_firstn; lia).
    simpl. apply text_eqb_true. reflexivity.
Qed.

Lemma scan_found (f : nat) (s m : text) :
  In m (scan f s) -> (exists pre post, s = pre ++ m ++ post) /\ valid_address m = true.
Proof.
  revert s. induction f as [|f IH]; intros s H; [destruct H|].
  destruct s as [|c s']; [destruct H|]. simpl in H.
  destruct (match_at (c :: s')) as [[m' r]|] eqn:E.
  - apply match_at_valid in E as [Hs Hv]. destruct H as [<-|H].
    + split; [exists [], r; exact Hs | exact Hv].
    + destruct (IH r H) as [[pre [post Hr]] Hm]. split; [|exact Hm].
      exists (m' ++ pre), post. rewrite Hs, Hr, <- app_assoc. reflexivity.
  - destruct (IH s' H) as [[pre [post Hr]] Hm]. split; [|exact Hm].
    exists (c :: pre), post. rewrite Hr. reflexivity.
Qed.

Lemma is_local_lower (c : ascii) : is_local (to_lower_char c) = is_local c.
Proof. destruct c as [[] [] [] [] [] [] [] []]; reflexivity. Qed.

Lemma is_dom_lower (c : ascii) : is_dom (to_lower_char c) = is_dom c.
Proof. destruct c as [[] [] [] [] [] [] [] []]; reflexivity. Qed.

Lemma is_alpha_lower (c : ascii) : is_alpha (to_lower_char c) = is_alpha c.
Proof. destruct c as [[] [] [] [] [] [] [] []]; reflexivity. Qed.

Lemma at_lower (c : ascii) : Ascii.eqb (to_lower_char c) "@" = Ascii.eqb c "@".
Proof. destruct c as [[] [] [] [] [] [] [] []]; reflexivity. Qed.

Lemma dot_lower (c : ascii) : Ascii.eqb (to_lower_char c) "." = Ascii.eqb c ".".
Proof. destruct c as [[] [] [] [] [] [] [] []]; reflexivity. Qed.

Lemma span_lower (p : ascii -> bool) (s : text) :
  (forall c, p (to_lower_char c) = p c) ->
  span p (toLowerCase s) = (toLowerCase (fst (span p s)), toLowerCase (snd (span p s))).
Proof.
  intros Hp. induction s as [|c s IH]; [reflexivity|].
  unfold toLowerCase in *. simpl. rewrite Hp.
  destruct (p c); [|reflexivity].
  rewrite IH. destruct (span p s) as [a b]. reflexivity.
Qed.

Lemma dom_end_lower (d : text) (i : nat) : dom_end (toLowerCase d) i = dom_end d i.
Proof.
  revert i. induction d as [|c d IH]; intros i; [reflexivity|].
  change (toLowerCase (c :: d)) with (to_lower_char c :: toLowerCase d). simpl.
  rewrite IH, dot_lower, (span_lower _ _ is_alpha_lower). simpl.
  unfold toLowerCase. rewrite length_map. reflexivity.
Qed.

Lemma match_at_lower (s : text) :
  match_at (toLowerCase s) =
  match match_at s with
  | Some (m, r) => Some (toLowerCase m, toLowerCase r)
  | None => None
  end.
Proof.
  unfold match_at. rewrite (span_lower _ _ is_local_lower).
  destruct (span is_local s) as [loc r1]. simpl.
  destruct loc as [|c0 loc]; [reflexivity|].
  destruct r1 as [|at_ r2]; [reflexivity|].
  change (toLowerCase (at_ :: r2)) with (to_lower_char at_ :: toLowerCase r2).
  change (toLowerCase (c0 :: loc)) with (to_lower_char c0 :: toLowerCase loc).
  cbn iota beta. rewrite at_lower. destruct (Ascii.eqb at_ "@"); [|reflexivity].
  rewrite (span_lower _ _ is_dom_lower). destruct (span is_dom r2) as [d r3]. simpl.
  rewrite dom_end_lower. destruct (dom_end d 0) as [e|]; [|reflexivity].
  unfold toLowerCase. cbn [map]. rewrite !map_app, firstn_map, skipn_map. reflexivity.
Qed.

Lemma valid_address_lower (a : text) : valid_address a = true -> valid_address (toLowerCase a) = true.
Proof.
  intros H. apply valid_address_match in H.
  unfold valid_address. rewrite match_at_lower, H. apply text_eqb_true. reflexivity.
Qed.

Lemma toLowerCase_app (a b : text) : toLowerCase (a ++ b) = toLowerCase a ++ toLowerCase b.
Proof. apply map_app. Qed.

(** Every identity [extractEmailsFromPage] returns is in lower case, is
    matched in full by [EMAIL_REGEX], and contains none of the deny-list's
    substrings. *)
Theorem extract_output_wellformed (b : option text) :
  Forall (fun e => valid_address e = true /\ toLowerCase e = e /\ denied e = false)
    (extractEmailsFromPage b).
Proof.
  destruct b as [t|]; [|constructor]. simpl.
  apply Forall_forall. intros e He.
  apply filter_In in He as [He Hd]. apply negb_true_iff in Hd.
  apply in_map_iff in He as [m [<- Hm]].
  destruct (scan_found _ _ _ Hm) as [_ Hv].
  split; [apply valid_address_lower, Hv|]. split; [apply toLowerCase_idem|exact Hd].
Qed.

(** [extractEmailsFromPage] invents nothing: every identity it returns
    occurs, up to letter case, in the page text. *)
Theorem extract_output_in_page (t e : text) :
  In e (extractEmailsFromPage (Some t)) ->
  exists pre post, toLowerCase t = pre ++ e ++ post.
Proof.
  simpl. intros He. apply filter_In in He as [He _].
  apply in_map_iff in He as [m [<- Hm]].
  destruct (scan_found _ _ _ Hm) as [[pre [post Hs]] _].
  exists (toLowerCase pre), (toLowerCase post). rewrite Hs, !toLowerCase_app. reflexivity.
Qed.

Lemma extract_output_in_page_witness :
  In (lit "info@plumb.io") (extractEmailsFromPage (Some (lit "Mail Info@Plumb.io now"))) /\
  exists pre post, toLowerCase (lit "Mail Info@Plumb.io now") = pre ++ lit "info@plumb.io" ++ post.
Proof.
  split; [vm_compute; left; reflexivity|].
  apply extract_output_in_page. vm_compute. left. reflexivity.
Defined.

Lemma drop_ws_idem (s : text) : drop_ws (drop_ws s) = drop_ws s.
Proof.
  induction s as [|c s IH]; [reflexivity|]. simpl.
  destruct (is_ws c) eqn:H; [exact IH|]. simpl. rewrite H. reflexivity.
Qed.

Lemma drop_ws_suffix (s : text) : exists p, s = p ++ drop_ws s.
Proof.
  induction s as [|c s IH]; [exists []; reflexivity|]. simpl.
  destruct (is_ws c).
  - destruct IH as [p Hp]. exists (c :: p). simpl. rewrite <- Hp. reflexivity.
  - exists []. reflexivity.
Qed.

Lemma drop_ws_head (s : text) (c : ascii) (r : text) :
  drop_ws s = c :: r -> is_ws c = false.
Proof.
  induction s as [|d s IH]; simpl; [discriminate|].
  destruct (is_ws d) eqn:H; [exact IH|]. intros E. injection E as <- _. exact H.
Qed.

Lemma trim_idem (s : text) : trim (trim s) = trim s.
Proof.
  unfold trim. set (u := drop_ws s). set (t := rev (drop_ws (rev u))).
  assert (Ht : drop_ws t = t).
  { destruct (drop_ws_suffix (rev u)) as [p Hp].
    assert (Hu : u = t ++ rev p).
    { unfold t. rewrite <- (rev_involutive u) at 1. rewrite Hp at 1. rewrite rev_app_distr. reflexivity. }
    destruct t as [|c r] eqn:E; [reflexivity|].
    assert (Hc : is_ws c = false).
    { apply (drop_ws_head s c (r ++ rev p)). fold u. rewrite Hu. reflexivity. }
    simpl. rewrite Hc. reflexivity. }
  rewrite Ht. unfold t. rewrite rev_involutive, drop_ws_idem. reflexivity.
Qed.

(** Every query [readCSV] returns is non-empty and has no leading or
    trailing white space; a missing input file gives no query. *)
Theorem readCSV_queries_trimmed (ex : bool) (stream : option (list csv_obj)) (qs : list text) :
  readCSV ex stream = Some qs ->
  Forall (fun q => q <> [] /\ trim q = q) qs /\ (ex = false -> qs = []).
Proof.
  unfold readCSV. intros H. destruct ex; simpl in H.
  - destruct stream as [rows|]; [|discriminate]. injection H as <-.
    split; [|discriminate]. apply Forall_forall. intros q Hq.
    apply in_flat_map in Hq as [data [_ Hq]].
    destruct (pick_query data) as [|c v]; [destruct Hq|].
    destruct (trim (c :: v)) as [|d t] eqn:E; [destruct Hq|].
    destruct Hq as [<-|[]]. split; [discriminate|]. rewrite <- E. apply trim_idem.
  - injection H as <-. split; [constructor|reflexivity].
Qed.

Lemma readCSV_queries_trimmed_witness :
  let data : csv_obj := fun k => if text_eqb k (lit "query") then Some (lit "  plumbers  ") else None in
  readCSV true (Some [data]) = Some [lit "plumbers"] /\
  Forall (fun q => q <> [] /\ trim q = q) [lit "plumbers"].
Proof.
  intros data. assert (H : readCSV true (Some [data]) = Some [lit "plumbers"]) by (vm_compute; reflexivity).
  split; [exact H|]. exact (proj1 (readCSV_queries_trimmed _ _ _ H)).
Defined.

(** The [query] column wins over [q] and [search] whenever it exists: a row
    whose [query] cell is blank contributes no query, even when its [q] or
    [search] cell holds one ([??] falls back only on a missing column). *)
Theorem readCSV_query_column_first (data : csv_obj) (v : text) :
  data (lit "query") = Some v -> trim v = [] -> readCSV true (Some [data]) = Some [].
Proof.
  intros Hq Ht. unfold readCSV. cbn [negb flat_map]. unfold pick_query. rewrite Hq.
  destruct v as [|c v]; [reflexivity|]. rewrite Ht. reflexivity.
Qed.

Lemma readCSV_query_column_first_witness :
  let data : csv_obj := fun k =>
    if text_eqb k (lit "query") then Some (lit " ")
    else if text_eqb k (lit "q") then Some (lit "plumbers") else None in
  readCSV true (Some [data]) = Some [].
Proof.
  intros data. apply (readCSV_query_column_first data (lit " ")); vm_compute; reflexivity.
Defined.

Section JSNumbers.
Local Open Scope Z_scope.

Lemma dbl_round_small (a : Z) : 0 <= a < 2 ^ 53 -> dbl_round a = a.
Proof.
  intros Ha. unfold dbl_round.
  assert (Hl : Z.log2 a < 53).
  { destruct (Z.eq_dec a 0) as [->|Hn]; [reflexivity|].
    apply Z.log2_lt_pow2; lia. }
  replace (Z.log2 a - 52 <=? 0) with true by (symmetry; apply Z.leb_le; lia).
  reflexivity.
Qed.

Lemma round_double_small (z : Z) : Z.abs z < 2 ^ 53 -> round_double z = Fin z.
Proof.
  intros Hz. unfold round_double. rewrite dbl_round_small by lia.
  replace (2 ^ 1024 <=? Z.abs z) with false
    by (symmetry; apply Z.leb_gt; eapply Z.lt_le_trans; [exact Hz|];
        apply Z.pow_le_mono_r; lia).
  rewrite Z.mul_comm, Z.abs_sgn. reflexivity.
Qed.

Lemma dbl_round_repr (q e : Z) :
  0 <= q < 2 ^ 53 -> 0 <= e -> dbl_round (q * 2 ^ e) = q * 2 ^ e.
Proof.
  intros Hq He.
  destruct (Z.eq_dec q 0) as [->|Hq0]; [reflexivity|].
  destruct (Z.lt_ge_cases (q * 2 ^ e) (2 ^ 53)) as [Hs|Hb].
  { apply dbl_round_small. split; [|exact Hs]. apply Z.mul_nonneg_nonneg; [lia|].
    apply Z.pow_nonneg; lia. }
  unfold dbl_round. rewrite Z.log2_mul_pow2, (Z.add_comm e (Z.log2 q)) by lia.
  assert (Hlq : Z.log2 q <= 52) by (apply Z.lt_succ_r, Z.log2_lt_pow2; lia).
  assert (Hsh : 0 < Z.log2 q + e - 52).
  { assert (Z.log2 (q * 2 ^ e) >= 53) as H.
    { apply Z.le_ge, Z.log2_le_pow2; [|exact Hb].
      apply Z.mul_pos_pos; [lia|apply Z.pow_pos_nonneg; lia]. }
    rewrite Z.log2_mul_pow2 in H by lia. lia. }
  replace (Z.log2 q + e - 52 <=? 0) with false by (symmetry; apply Z.leb_gt; lia).
  set (sh := Z.log2 q + e - 52).
  assert (Hsplit : q * 2 ^ e = (q * 2 ^ (e - sh)) * 2 ^ sh).
  { rewrite <- Z.mul_assoc, <- Z.pow_add_r by lia. f_equal. f_equal. lia. }
  cbv zeta. rewrite Hsplit, Z.div_mul, Z.mod_mul by (apply Z.pow_nonzero; lia).
  replace (2 ^ sh <? 2 * 0) with false
    by (symmetry; apply Z.ltb_ge; assert (0 < 2 ^ sh) by (apply Z.pow_pos_nonneg; lia); lia).
  replace (2 * 0 =? 2 ^ sh) with false
    by (symmetry; apply Z.eqb_neq; assert (0 < 2 ^ sh) by (apply Z.pow_pos_nonneg; lia); lia).
  reflexivity.
Qed.

Lemma dbl_round_form (a : Z) :
  0 <= a -> exists q e, 0 <= q < 2 ^ 53 /\ 0 <= e /\ dbl_round a = q * 2 ^ e /\
    Z.min a (2 ^ 52) <= q * 2 ^ e.
Proof.
  intros Ha. unfold dbl_round.
  destruct (Z.log2 a - 52 <=? 0) eqn:Hsh.
  - apply Z.leb_le in Hsh. exists a, 0. rewrite Z.mul_1_r.
    split; [|split; [lia|split; [reflexivity|lia]]].
    split; [exact Ha|].
    destruct (Z.eq_dec a 0) as [->|Hn]; [reflexivity|].
    destruct (Z.log2_spec a) as [_ H2]; [lia|].
    eapply Z.lt_le_trans; [exact H2|]. apply Z.pow_le_mono_r; lia.
  - apply Z.leb_gt in Hsh. set (sh := Z.log2 a - 52) in *.
    assert (Hpos : 0 < a) by (destruct (Z.eq_dec a 0) as [->|]; [cbn in sh; unfold sh in Hsh; cbn in Hsh; lia|lia]).
    destruct (Z.log2_spec a Hpos) as [L1 L2].
    assert (Hu : 0 < 2 ^ sh) by (apply Z.pow_pos_nonneg; lia).
    assert (E1 : 2 ^ Z.log2 a = 2 ^ 52 * 2 ^ sh)
      by (rewrite <- Z.pow_add_r by lia; f_equal; unfold sh; lia).
    assert (E2 : 2 ^ Z.succ (Z.log2 a) = 2 ^ 53 * 2 ^ sh)
      by (rewrite <- Z.pow_add_r by lia; f_equal; unfold sh; lia).
    assert (Q1 : 2 ^ 52 <= a / 2 ^ sh) by (apply Z.div_le_lower_bound; lia).
    assert (Q2 : a / 2 ^ sh < 2 ^ 53) by (apply Z.div_lt_upper_bound; lia).
    set (q := a / 2 ^ sh) in *.
    set (b := (2 ^ sh <? 2 * (a mod 2 ^ sh)) || ((2 * (a mod 2 ^ sh) =? 2 ^ sh) && Z.odd q)).
    assert (Hm : Z.min a (2 ^ 52) <= 2 ^ 52) by lia.
    destruct b.
    + destruct (Z.eq_dec (q + 1) (2 ^ 53)) as [Eq|Ne].
      * exists (2 ^ 52), (sh + 1). split; [lia|split; [lia|split]].
        -- rewrite Eq, Z.pow_add_r by lia.
           replace (2 ^ 53) with (2 ^ 52 * 2 ^ 1) by reflexivity. ring.
        -- eapply Z.le_trans; [exact Hm|].
           rewrite <- (Z.mul_1_r (2 ^ 52)) at 1. apply Z.mul_le_mono_nonneg_l; [lia|].
           assert (0 < 2 ^ (sh + 1)) by (apply Z.pow_pos_nonneg; lia). lia.
      * exists (q + 1), sh. split; [lia|split; [lia|split; [reflexivity|]]].
        eapply Z.le_trans; [exact Hm|]. nia.
    + exists q, sh. split; [lia|split; [lia|split; [reflexivity|]]].
      eapply Z.le_trans; [exact Hm|]. nia.
Qed.

Lemma dbl_round_idem (a : Z) : 0 <= a -> dbl_round (dbl_round a) = dbl_round a.
Proof.
  intros Ha. destruct (dbl_round_form a Ha) as (q & e & Hq & He & -> & _).
  apply dbl_round_repr; assumption.
Qed.

Lemma dbl_round_nonneg (a : Z) : 0 <= a -> 0 <= dbl_round a.
Proof.
  intros Ha. destruct (dbl_round_form a Ha) as (q & e & Hq & He & -> & _).
  apply Z.mul_nonneg_nonneg; [lia|apply Z.pow_nonneg; lia].
Qed.

Lemma dbl_round_ge (a : Z) : 0 <= a -> Z.min a (2 ^ 52) <= dbl_round a.
Proof.
  intros Ha. destruct (dbl_round_form a Ha) as (q & e & Hq & He & -> & H). exact H.
Qed.

Lemma round_double_zero : round_double 0 = Fin 0.
Proof. reflexivity. Qed.

Lemma round_double_idem (z m : Z) : round_double z = Fin m -> round_double m = Fin m.
Proof.
  unfold round_double at 1. intros H.
  pose proof (dbl_round_nonneg (Z.abs z) (Z.abs_nonneg z)) as Hn.
  destruct (2 ^ 1024 <=? dbl_round (Z.abs z)) eqn:Hinf;
    [destruct (z <? 0); discriminate|].
  injection H as <-. apply Z.leb_gt in Hinf.
  destruct (Z.eq_dec z 0) as [->|Hz]; [reflexivity|].
  assert (Ha : Z.abs (Z.sgn z * dbl_round (Z.abs z)) = dbl_round (Z.abs z)).
  { rewrite Z.abs_mul. rewrite (Z.abs_eq (dbl_round _)) by exact Hn.
    destruct (Z.sgn_spec z) as [[? ->]|[[? ->]|[? ->]]]; lia. }
  unfold round_double. rewrite Ha, dbl_round_idem by apply Z.abs_nonneg.
  replace (2 ^ 1024 <=? dbl_round (Z.abs z)) with false by (symmetry; apply Z.leb_gt; exact Hinf).
  rewrite <- Ha at 2. rewrite Z.mul_comm, Z.abs_sgn. reflexivity.
Qed.

Lemma round_double_nonneg (z m : Z) : 0 <= z -> round_double z = Fin m -> Z.min z (2 ^ 52) <= m.
Proof.
  intros Hz. unfold round_double.
  destruct (2 ^ 1024 <=? dbl_round (Z.abs z)); [destruct (z <? 0); discriminate|].
  intros H. injection H as <-. rewrite Z.abs_eq by exact Hz.
  pose proof (dbl_round_ge z Hz).
  destruct (Z.eq_dec z 0) as [->|Hn]; [cbn; lia|].
  rewrite Z.sgn_pos by lia. lia.
Qed.

Lemma round_double_pos (z : Z) :
  1 <= z -> round_double z = PosInf \/ exists m, round_double z = Fin m /\ Z.min z (2 ^ 52) <= m.
Proof.
  intros Hz. destruct (round_double z) eqn:E.
  - unfold round_double in E. destruct (_ <=? _); [destruct (z <? 0); discriminate|discriminate].
  - left; reflexivity.
  - unfold round_double in E. destruct (_ <=? _); [|discriminate].
    replace (z <? 0) with false in E by (symmetry; apply Z.ltb_ge; lia). discriminate.
  - right. exists z0. split; [reflexivity|]. apply (round_double_nonneg z); [lia|exact E].
Qed.

(** Digits *)

Lemma digit_char_spec (d : Z) :
  0 <= d < 10 -> is_digit (digit_char d) = true /\ digit_val (digit_char d) = d.
Proof.
  intros Hd.
  assert (d = 0 \/ d = 1 \/ d = 2 \/ d = 3 \/ d = 4 \/ d = 5 \/ d = 6 \/ d = 7 \/ d = 8 \/ d = 9)
    as Hc by lia.
  repeat destruct Hc as [->|Hc]; [..|subst d]; split; reflexivity.
Qed.

Lemma is_digit_range (c : ascii) :
  is_digit c = true -> (48 <= nat_of_ascii c <= 57)%nat.
Proof.
  unfold is_digit, in_range. intros H. apply andb_prop in H as [H1 H2].
  apply Nat.leb_le in H1, H2. exact (conj H1 H2).
Qed.

Lemma digit_val_range (c : ascii) : is_digit c = true -> 0 <= digit_val c <= 9.
Proof. intros H. apply is_digit_range in H. unfold digit_val. lia. Qed.

Lemma digits_value_app (l : text) (c : ascii) :
  digits_value (l ++ [c]) = 10 * digits_value l + digit_val c.
Proof. unfold digits_value. rewrite fold_left_app. reflexivity. Qed.

Lemma numeral_aux_S (f : nat) (x : Z) (acc : text) :
  numeral_aux (S f) x acc =
  if x <? 10 then digit_char x :: acc
  else numeral_aux f (x / 10) (digit_char (x mod 10) :: acc).
Proof. reflexivity. Qed.

Lemma numeral_aux_spec (f : nat) : forall x acc,
  0 <= x < 2 ^ Z.of_nat (S f) ->
  exists ds, numeral_aux (S f) x acc = ds ++ acc /\ ds <> [] /\
    Forall (fun c => is_digit c = true) ds /\ digits_value ds = x /\
    x < 10 ^ Z.of_nat (length ds) /\ (1 <= x -> 10 ^ (Z.of_nat (length ds) - 1) <= x).
Proof.
  induction f as [|f IH]; intros x acc Hx; rewrite numeral_aux_S; [cbn [numeral_aux]|].
  - replace (x <? 10) with true by (symmetry; apply Z.ltb_lt; cbn in Hx; lia).
    exists [digit_char x]. destruct (digit_char_spec x) as [D V]; [cbn in Hx; lia|].
    split; [reflexivity|]. split; [discriminate|]. split; [constructor; [exact D|constructor]|].
    split; [change (digits_value [digit_char x]) with (10 * 0 + digit_val (digit_char x));
      rewrite V; ring|].
    cbn [length Z.of_nat Pos.of_succ_nat]. change (10 ^ 1) with 10. change (10 ^ (1 - 1)) with 1. lia.
  - destruct (x <? 10) eqn:Hlt.
    + apply Z.ltb_lt in Hlt. exists [digit_char x].
      destruct (digit_char_spec x) as [D V]; [lia|].
      split; [reflexivity|]. split; [discriminate|]. split; [constructor; [exact D|constructor]|].
      split; [change (digits_value [digit_char x]) with (10 * 0 + digit_val (digit_char x));
      rewrite V; ring|].
    cbn [length Z.of_nat Pos.of_succ_nat]. change (10 ^ 1) with 10. change (10 ^ (1 - 1)) with 1. lia.
    + apply Z.ltb_ge in Hlt.
      assert (Hq : 0 <= x / 10 < 2 ^ Z.of_nat (S f)).
      { split; [apply Z.div_pos; lia|]. apply Z.div_lt_upper_bound; [lia|].
        rewrite (Nat2Z.inj_succ (S f)), Z.pow_succ_r in Hx by lia.
        assert (0 < 2 ^ Z.of_nat (S f)) by (apply Z.pow_pos_nonneg; lia). lia. }
      destruct (IH (x / 10) (digit_char (x mod 10) :: acc) Hq)
        as (ds & E & Hne & Hd & Hv & Hup & Hlo).
      destruct (digit_char_spec (x mod 10)) as [D V]; [apply Z.mod_pos_bound; lia|].
      exists (ds ++ [digit_char (x mod 10)]). rewrite E, <- app_assoc. split; [reflexivity|].
      split; [destruct ds; discriminate|].
      split; [apply Forall_app; split; [exact Hd|constructor; [exact D|constructor]]|].
      rewrite digits_value_app, Hv, V, length_app. cbn [length].
      rewrite Nat2Z.inj_add. cbn [Z.of_nat Pos.of_succ_nat].
      pose proof (Z.div_mod x 10) as Dm. pose proof (Z.mod_pos_bound x 10) as Mb.
      split; [lia|]. rewrite Z.pow_add_r by lia. replace (Z.of_nat (length ds) + 1 - 1)
        with (Z.of_nat (length ds)) by lia.
      split; [lia|]. intros _.
      assert (1 <= x / 10) by (apply Z.div_le_lower_bound; lia).
      specialize (Hlo ltac:(lia)).
      replace (10 ^ Z.of_nat (length ds)) with (10 * 10 ^ (Z.of_nat (length ds) - 1)).
      * lia.
      * assert (Hl : (1 <= length ds)%nat) by (destruct ds; [congruence|cbn; lia]).
        rewrite <- Z.pow_succ_r by lia. f_equal; lia.
Qed.

Lemma numeral_spec (x : Z) : 0 <= x ->
  numeral x <> [] /\ Forall (fun c => is_digit c = true) (numeral x) /\
  digits_value (numeral x) = x /\ x < 10 ^ Z.of_nat (length (numeral x)) /\
  (1 <= x -> 10 ^ (Z.of_nat (length (numeral x)) - 1) <= x).
Proof.
  intros Hx. unfold numeral.
  destruct (numeral_aux_spec (Z.to_nat (Z.log2 x)) x []) as (ds & E & H).
  - split; [exact Hx|]. rewrite Nat2Z.inj_succ, Z2Nat.id by apply Z.log2_nonneg.
    destruct (Z.eq_dec x 0) as [->|Hn]; [reflexivity|].
    apply Z.log2_spec; lia.
  - rewrite E, app_nil_r. exact H.
Qed.

Lemma is_digit_not_sign (c : ascii) : is_digit c = true ->
  is_ws c = false /\ Ascii.eqb c "-" = false /\ Ascii.eqb c "+" = false.
Proof.
  intros H. apply is_digit_range in H. split; [|split].
  - unfold is_ws. cbv zeta.
    destruct (9 <=? nat_of_ascii c)%nat, (nat_of_ascii c <=? 13)%nat eqn:E1; cbn [andb orb];
      try (apply Nat.leb_le in E1; lia);
      (destruct (nat_of_ascii c =? 32)%nat eqn:E2; [apply Nat.eqb_eq in E2; lia|]);
      (destruct (nat_of_ascii c =? 160)%nat eqn:E3; [apply Nat.eqb_eq in E3; lia|]); reflexivity.
  - destruct (Ascii.eqb c "-") eqn:E; [apply Ascii.eqb_eq in E; subst c; cbn in H; lia|reflexivity].
  - destruct (Ascii.eqb c "+") eqn:E; [apply Ascii.eqb_eq in E; subst c; cbn in H; lia|reflexivity].
Qed.

Lemma span_digits (ds rest : text) :
  Forall (fun c => is_digit c = true) ds ->
  match rest with c :: _ => is_digit c = false | [] => True end ->
  span is_digit (ds ++ rest) = (ds, rest).
Proof.
  intros Hd Hr. induction Hd as [|c ds Hc Hd IH].
  - destruct rest as [|c rest]; [reflexivity|]. cbn. rewrite Hr. reflexivity.
  - cbn [app span]. rewrite Hc, IH. reflexivity.
Qed.

Lemma parseInt_digits (ds rest : text) :
  ds <> [] -> Forall (fun c => is_digit c = true) ds ->
  match rest with c :: _ => is_digit c = false | [] => True end ->
  parseInt (ds ++ rest) = round_double (digits_value ds).
Proof.
  intros Hne Hd Hr. destruct ds as [|c ds']; [congruence|].
  pose proof (Forall_inv Hd) as Hc. cbn beta in Hc.
  destruct (is_digit_not_sign c Hc) as (W & M & P).
  unfold parseInt. cbn [app drop_ws]. rewrite W, M, P, Hc.
  change (c :: ds' ++ rest) with ((c :: ds') ++ rest).
  rewrite span_digits by assumption. reflexivity.
Qed.

Lemma parseInt_numeral (x : Z) : 0 <= x -> parseInt (numeral x) = round_double x.
Proof.
  intros Hx. destruct (numeral_spec x Hx) as (Hne & Hd & Hv & _).
  rewrite <- (app_nil_r (numeral x)), parseInt_digits, Hv by (auto; exact I). reflexivity.
Qed.

(** Shortest digits *)

Lemma dbl_eqb_true (v x : Z) : dbl_eqb v x = true -> round_double v = Fin x.
Proof.
  unfold dbl_eqb. destruct (round_double v); try discriminate.
  intros H. apply Z.eqb_eq in H. subst. reflexivity.
Qed.

Lemma shortest_from_spec (f : nat) : forall k x d, 1 <= x -> 1 <= k ->
  let '(v, _) := shortest_from f k x d in
  v = x \/ (round_double v = Fin x /\ exists j, 0 <= j <= d - 1 /\
             (v = x / 10 ^ j * 10 ^ j \/ v = x / 10 ^ j * 10 ^ j + 10 ^ j)).
Proof.
  induction f as [|f IH]; intros k x d Hx Hk; [left; reflexivity|].
  cbn [shortest_from].
  destruct (Z.lt_ge_cases (d - k) 0) as [Hneg|Hj].
  - rewrite (Z.pow_neg_r 10 (d - k) Hneg), Z.div_0_r. cbn [Z.mul Z.add].
    replace (dbl_eqb 0 x) with false
      by (unfold dbl_eqb; rewrite round_double_zero; symmetry; apply Z.eqb_neq; lia).
    cbn [andb]. apply IH; lia.
  - set (lo := x / 10 ^ (d - k) * 10 ^ (d - k)).
    assert (Hj' : 0 <= d - k <= d - 1) by lia.
    destruct (dbl_eqb lo x) eqn:E1, (dbl_eqb (lo + 10 ^ (d - k)) x) eqn:E2; cbn [andb].
    4: apply IH; lia.
    all: try (apply dbl_eqb_true in E1); try (apply dbl_eqb_true in E2).
    all: repeat match goal with |- context [if ?b then _ else _] => destruct b end.
    all: lazy beta iota; right; split; [eassumption|exists (d - k); split; [exact Hj'|unfold lo; auto]].
Qed.

Lemma pow10_mono (a b : Z) : 0 <= a <= b -> 10 ^ a <= 10 ^ b.
Proof. intros H. apply Z.pow_le_mono_r; lia. Qed.

Lemma round_double_1e21 : round_double (10 ^ 21) = Fin (10 ^ 21).
Proof. vm_compute. reflexivity. Qed.

Lemma pos_to_string_small (x : Z) :
  1 <= x < 10 ^ 21 -> round_double x = Fin x -> parseInt (pos_to_string x) = Fin x.
Proof.
  intros Hx Hr. unfold pos_to_string.
  destruct (numeral_spec x ltac:(lia)) as (_ & _ & _ & Up & Lo).
  set (d := Z.of_nat (length (numeral x))) in *.
  specialize (Lo ltac:(lia)).
  assert (Hd : d <= 21).
  { destruct (Z.le_gt_cases d 21) as [|H]; [assumption|].
    pose proof (pow10_mono 21 (d - 1) ltac:(lia)). lia. }
  pose proof (shortest_from_spec (Z.to_nat d) 1 x d ltac:(lia) ltac:(lia)) as Hs.
  destruct (shortest_from (Z.to_nat d) 1 x d) as [v k].
  assert (Hv : 0 <= v < 10 ^ 21 /\ round_double v = Fin x).
  { destruct Hs as [->|[Hrv (j & Hj & Hv)]]; [split; [lia|exact Hr]|].
    split; [|exact Hrv].
    assert (Hu : 0 < 10 ^ j) by (apply Z.pow_pos_nonneg; lia).
    assert (Hlo : 0 <= x / 10 ^ j * 10 ^ j <= x)
      by (split; [apply Z.mul_nonneg_nonneg; [apply Z.div_pos|]; lia|rewrite Z.mul_comm; apply Z.mul_div_le; lia]).
    destruct Hv as [-> | ->]; [lia|].
    assert (E : 10 ^ 21 = 10 ^ (21 - j) * 10 ^ j)
      by (rewrite <- Z.pow_add_r by lia; f_equal; lia).
    assert (Q : x / 10 ^ j < 10 ^ (21 - j)) by (apply Z.div_lt_upper_bound; lia).
    assert (Hle : x / 10 ^ j * 10 ^ j + 10 ^ j <= 10 ^ 21) by nia.
    split; [lia|]. apply Z.le_neq. split; [exact Hle|]. intros Eq.
    rewrite Eq, round_double_1e21 in Hrv. injection Hrv. lia. }
  destruct Hv as [Hv Hrv]. replace (v <? 10 ^ 21) with true by (symmetry; apply Z.ltb_lt; lia).
  rewrite parseInt_numeral by lia. exact Hrv.
Qed.

Lemma pos_to_string_large (x : Z) :
  10 ^ 21 <= x -> round_double x = Fin x ->
  exists dg, 0 <= dg <= 9 /\ parseInt (pos_to_string x) = Fin dg.
Proof.
  intros Hx Hr. unfold pos_to_string.
  assert (H21 : 0 < 10 ^ 21) by (apply Z.pow_pos_nonneg; lia).
  destruct (numeral_spec x ltac:(lia)) as (_ & _ & _ & Up & Lo).
  set (d := Z.of_nat (length (numeral x))) in *.
  specialize (Lo ltac:(lia)).
  assert (Hd : 22 <= d).
  { destruct (Z.le_gt_cases 22 d) as [|H]; [assumption|].
    assert (0 <= d) by (unfold d; lia).
    pose proof (pow10_mono d 21 ltac:(lia)). lia. }
  pose proof (shortest_from_spec (Z.to_nat d) 1 x d ltac:(lia) ltac:(lia)) as Hs.
  destruct (shortest_from (Z.to_nat d) 1 x d) as [v k].
  assert (Hv : 10 ^ 21 <= v).
  { destruct Hs as [->|[_ (j & Hj & Hv)]]; [exact Hx|].
    assert (Hu : 0 < 10 ^ j) by (apply Z.pow_pos_nonneg; lia).
    assert (E : 10 ^ (d - 1) = 10 ^ (d - 1 - j) * 10 ^ j)
      by (rewrite <- Z.pow_add_r by lia; f_equal; lia).
    assert (Q : 10 ^ (d - 1 - j) <= x / 10 ^ j) by (apply Z.div_le_lower_bound; lia).
    pose proof (pow10_mono 21 (d - 1) ltac:(lia)).
    destruct Hv as [-> | ->]; nia. }
  replace (v <? 10 ^ 21) with false by (symmetry; apply Z.ltb_ge; exact Hv).
  set (n := Z.of_nat (length (numeral v))).
  assert (Hs0 : 0 <= v / 10 ^ (n - k)).
  { destruct (Z.lt_ge_cases (n - k) 0) as [N|N].
    - rewrite (Z.pow_neg_r 10 _ N), Z.div_0_r. lia.
    - apply Z.div_pos; [lia|apply Z.pow_pos_nonneg; lia]. }
  destruct (numeral_spec _ Hs0) as (Hne & Hdig & _).
  destruct (numeral (v / 10 ^ (n - k))) as [|c rest]; [congruence|].
  pose proof (Forall_inv Hdig) as Hc. cbn beta in Hc.
  exists (digit_val c). split; [apply digit_val_range, Hc|].
  change (c :: ?t) with ([c] ++ t).
  rewrite parseInt_digits.
  - cbn. rewrite round_double_small; [reflexivity|].
    pose proof (digit_val_range c Hc). rewrite Z.abs_eq by lia.
    eapply Z.le_lt_trans; [apply H|]. reflexivity.
  - discriminate.
  - constructor; [exact Hc|constructor].
  - destruct rest; reflexivity.
Qed.

End JSNumbers.

Section JSNumbers2.
Local Open Scope Z_scope.

Lemma js_max1_cases (x : jsnum) :
  js_max1 x = NaN \/ js_max1 x = PosInf \/ exists z, js_max1 x = Fin z /\ 1 <= z.
Proof.
  destruct x as [| | |z]; cbn [js_max1]; auto.
  - right; right. exists 1. split; [reflexivity|lia].
  - right; right. exists (Z.max 1 z). split; [reflexivity|lia].
Qed.

Lemma parseInt_fin (s : text) (m : Z) : parseInt s = Fin m -> round_double m = Fin m.
Proof.
  unfold parseInt. cbv zeta.
  match goal with |- context [match ?p with pair _ _ => _ end] => destruct p as [neg s2] end.
  destruct s2 as [|c r]; [discriminate|]. destruct (is_digit c); [|discriminate].
  apply round_double_idem.
Qed.

Lemma env_number_cases (e : option text) :
  js_max1 (parseInt (env_or e (lit "1"))) = NaN \/ js_max1 (parseInt (env_or e (lit "1"))) = PosInf \/
  exists z, js_max1 (parseInt (env_or e (lit "1"))) = Fin z /\ 1 <= z.
Proof. apply js_max1_cases. Qed.

(** The product [BROWSERS * TABS_PER_BROWSER] is [NaN], [Infinity] or a
    double [>= 1]. *)
Lemma product_cases (b t : option text) :
  let p := js_mul (BROWSERS b) (TABS_PER_BROWSER t) in
  p = NaN \/ p = PosInf \/ exists z, p = Fin z /\ 1 <= z /\ round_double z = Fin z.
Proof.
  cbv zeta. unfold BROWSERS, TABS_PER_BROWSER.
  destruct (env_number_cases b) as [Hb|[Hb|(x & Hb & Hx)]]; rewrite Hb;
  destruct (env_number_cases t) as [Ht|[Ht|(y & Ht & Hy)]]; rewrite Ht;
  cbn [js_mul js_sign]; auto.
  - rewrite Z.sgn_pos by lia. auto.
  - rewrite Z.sgn_pos by lia. auto.
  - destruct (round_double_pos (x * y) ltac:(nia)) as [E|(m & E & Hm)]; rewrite E; [auto|].
    right; right. exists m. split; [reflexivity|]. split; [lia|].
    exact (round_double_idem _ _ E).
Qed.

Lemma concurrency_fin (conc b t : option text) (c : Z) :
  CONCURRENCY conc b t = Fin c -> 1 <= c /\ round_double c = Fin c.
Proof.
  unfold CONCURRENCY. destruct (parseInt _) as [| | |m] eqn:E; cbn [js_max1]; intros H;
    try discriminate; injection H as <-.
  - split; [lia|reflexivity].
  - apply parseInt_fin in E. split; [lia|].
    destruct (Z.le_gt_cases m 1); [rewrite Z.max_l by lia; reflexivity|].
    rewrite Z.max_r by lia. exact E.
Qed.

Lemma js_String_three : parseInt (js_String (Fin 3)) = Fin 3.
Proof. reflexivity. Qed.

Lemma batch_loop_js_nat (c : Z) (qs : list text) (run : text -> run_result) :
  1 <= c -> round_double c = Fin c -> Z.of_nat (length qs) < 2 ^ 32 ->
  forall f n, batch_loop_js f (Fin (Z.of_nat n)) (Fin c) qs run = batch_loop f n (Z.to_nat c) qs run.
Proof.
  intros Hc Hrc Hlen. induction f as [|f IH]; intros n; [reflexivity|].
  cbn [batch_loop_js batch_loop js_lt js_add].
  replace (Z.ltb (Z.of_nat n) (Z.of_nat (length qs))) with (Nat.ltb n (length qs))
    by (destruct (Nat.ltb n (length qs)) eqn:E;
        [apply Nat.ltb_lt in E | apply Nat.ltb_ge in E]; symmetry;
        [apply Z.ltb_lt | apply Z.ltb_ge]; lia).
  destruct (Nat.ltb n (length qs)) eqn:Hn; [|reflexivity].
  apply Nat.ltb_lt in Hn.
  assert (Hlo : js_rel (Z.of_nat (length qs)) (Fin (Z.of_nat n)) = Z.of_nat n).
  { cbn [js_rel]. replace (Z.of_nat n <? 0) with false by (symmetry; apply Z.ltb_ge; lia). lia. }
  destruct (Z.lt_ge_cases (Z.of_nat n + c) (2 ^ 53)) as [Small|Big].
  - rewrite round_double_small by lia.
    assert (Hsl : js_slice qs (Fin (Z.of_nat n)) (Fin (Z.of_nat n + c))
                  = firstn (Z.to_nat c) (skipn n qs)).
    { unfold js_slice. rewrite Hlo. cbn [js_rel].
      replace (Z.of_nat n + c <? 0) with false by (symmetry; apply Z.ltb_ge; lia).
      replace (Z.to_nat (Z.of_nat n)) with n by lia.
      replace (Z.to_nat (Z.min (Z.of_nat n + c) (Z.of_nat (length qs)) - Z.of_nat n))
        with (Nat.min (Z.to_nat c) (length (skipn n qs))) by (rewrite length_skipn; lia).
      rewrite <- firstn_firstn, firstn_all. reflexivity. }
    rewrite Hsl. replace (Z.of_nat n + c) with (Z.of_nat (n + Z.to_nat c)) by lia.
    rewrite IH. reflexivity.
  - assert (Hnext : exists i, round_double (Z.of_nat n + c) = i /\
              js_rel (Z.of_nat (length qs)) i = Z.of_nat (length qs) /\
              js_lt i (Z.of_nat (length qs)) = false).
    { destruct (round_double_pos (Z.of_nat n + c) ltac:(lia)) as [E|(m & E & Hm)].
      - exists PosInf. split; [exact E|split; reflexivity].
      - exists (Fin m). split; [exact E|]. cbn [js_rel js_lt].
        assert (2 ^ 32 < 2 ^ 52) by reflexivity.
        replace (m <? 0) with false by (symmetry; apply Z.ltb_ge; lia).
        split; [lia|apply Z.ltb_ge; lia]. }
    destruct Hnext as (i & -> & Hrel & Hlt).
    assert (Hc_big : Z.of_nat (length qs) < c).
    { assert (2 ^ 32 + 2 ^ 32 < 2 ^ 53) by reflexivity. lia. }
    assert (Hsl : js_slice qs (Fin (Z.of_nat n)) i = firstn (Z.to_nat c) (skipn n qs)).
    { unfold js_slice. rewrite Hlo, Hrel.
      replace (Z.to_nat (Z.of_nat n)) with n by lia.
      rewrite !firstn_all2 by (rewrite length_skipn; lia). reflexivity. }
    rewrite Hsl. destruct (forallb _ _); [|reflexivity].
    destruct f as [|f]; [reflexivity|].
    cbn [batch_loop_js batch_loop]. rewrite Hlt.
    replace (Nat.ltb (n + Z.to_nat c) (length qs)) with false
      by (symmetry; apply Nat.ltb_ge; lia).
    reflexivity.
Qed.

End JSNumbers2.

(** When [CONCURRENCY] is not set: if [BROWSERS] or [TABS_PER_BROWSER] is
    not a number, the ceiling is 3; otherwise their product [p] is a double
    [>= 1] or [Infinity]; a product below [10^21] is the ceiling; from
    [10^21] on, [String(p)] is in exponent form and [parseInt] keeps its
    first digit, so the ceiling is between 1 and 9; [Infinity] gives
    [String(p) = "Infinity"] and the ceiling is [NaN]. *)
Theorem concurrency_default (b t : option text) :
  match js_mul (BROWSERS b) (TABS_PER_BROWSER t) with
  | NaN | PosInf => True | NegInf => False | Fin p => (1 <= p)%Z
  end /\
  (BROWSERS b = NaN \/ TABS_PER_BROWSER t = NaN -> CONCURRENCY None b t = Fin 3) /\
  (forall p, js_mul (BROWSERS b) (TABS_PER_BROWSER t) = Fin p -> (p < 10 ^ 21)%Z ->
     CONCURRENCY None b t = Fin p) /\
  (forall p, js_mul (BROWSERS b) (TABS_PER_BROWSER t) = Fin p -> (10 ^ 21 <= p)%Z ->
     exists d, (1 <= d <= 9)%Z /\ CONCURRENCY None b t = Fin d) /\
  (js_mul (BROWSERS b) (TABS_PER_BROWSER t) = PosInf -> CONCURRENCY None b t = NaN).
Proof.
  pose proof (product_cases b t) as Hp. cbv zeta in Hp.
  assert (Hfin : forall p, js_mul (BROWSERS b) (TABS_PER_BROWSER t) = Fin p ->
            (1 <= p)%Z /\ round_double p = Fin p).
  { intros p E. rewrite E in Hp. destruct Hp as [H|[H|(z & H & Hz & Hr)]]; try discriminate.
    injection H as <-. split; assumption. }
  unfold CONCURRENCY. cbn [env_or]. split; [|split; [|split; [|split]]].
  - destruct Hp as [->|[->|(z & -> & Hz & _)]]; exact I || exact Hz.
  - intros [H|H]; rewrite H; [reflexivity|].
    destruct (BROWSERS b) as [| | |x]; reflexivity.
  - intros p E Hlt. destruct (Hfin p E) as [H1 Hr]. rewrite E. cbn [js_or_num].
    replace (p =? 0)%Z with false by (symmetry; apply Z.eqb_neq; lia).
    cbn [js_String]. replace (p =? 0)%Z with false by (symmetry; apply Z.eqb_neq; lia).
    replace (p <? 0)%Z with false by (symmetry; apply Z.ltb_ge; lia).
    rewrite pos_to_string_small by (auto; lia). cbn [js_max1]. f_equal. lia.
  - intros p E Hge. destruct (Hfin p E) as [H1 Hr]. rewrite E. cbn [js_or_num].
    replace (p =? 0)%Z with false by (symmetry; apply Z.eqb_neq; lia).
    cbn [js_String]. replace (p =? 0)%Z with false by (symmetry; apply Z.eqb_neq; lia).
    replace (p <? 0)%Z with false by (symmetry; apply Z.ltb_ge; lia).
    destruct (pos_to_string_large p Hge Hr) as (d & Hd & ->).
    exists (Z.max 1 d). split; [lia|reflexivity].
  - intros ->. reflexivity.
Qed.

Lemma concurrency_default_witness :
  CONCURRENCY None (Some (lit "2")) (Some (lit " 3 tabs")) = Fin 6 /\
  CONCURRENCY None (Some (lit "two")) None = Fin 3 /\
  (exists d, (1 <= d <= 9)%Z /\
     CONCURRENCY None (Some (lit "100000000000")) (Some (lit "10000000000")) = Fin d) /\
  CONCURRENCY None (Some (repeat "9"%char 400)) None = NaN.
Proof.
  split; [|split; [|split]].
  - destruct (concurrency_default (Some (lit "2")) (Some (lit " 3 tabs"))) as (_ & _ & H & _).
    apply (H 6%Z); vm_compute; reflexivity.
  - destruct (concurrency_default (Some (lit "two")) None) as (_ & H & _).
    apply H. left. vm_compute. reflexivity.
  - destruct (concurrency_default (Some (lit "100000000000")) (Some (lit "10000000000")))
      as (_ & _ & _ & H & _).
    apply (H (10 ^ 21)%Z); [vm_compute; reflexivity|apply Z.le_refl].
  - destruct (concurrency_default (Some (repeat "9"%char 400)) None) as (_ & _ & _ & _ & H).
    apply H. vm_compute. reflexivity.
Defined.

(** A [CONCURRENCY] value that is not a number makes the ceiling [NaN]:
    the first slice [queries.slice(0, NaN)] is empty, the index becomes
    [NaN] and the loop ends, so no query is run and the run completes
    normally. *)
Theorem concurrency_nan_runs_nothing (s : text) (b t : option text) (qs : list text)
    (run : text -> run_result) :
  s <> [] -> parseInt s = NaN ->
  CONCURRENCY (Some s) b t = NaN /\
  concat (fst (main_loop_js (CONCURRENCY (Some s) b t) qs run)) = [] /\
  snd (main_loop_js (CONCURRENCY (Some s) b t) qs run) = true.
Proof.
  intros Hs Hp.
  assert (Hc : CONCURRENCY (Some s) b t = NaN).
  { unfold CONCURRENCY. destruct s as [|c s]; [congruence|]. cbn [env_or]. rewrite Hp. reflexivity. }
  rewrite Hc. split; [reflexivity|].
  unfold main_loop_js. destruct qs as [|q qs]; [split; reflexivity|].
  cbn [batch_loop_js js_lt].
  replace (Z.ltb 0 (Z.of_nat (length (q :: qs)))) with true
    by (symmetry; apply Z.ltb_lt; simpl length; lia).
  cbn [js_add]. unfold js_slice at 1. cbn [js_rel].
  replace (Z.ltb 0 0) with false by reflexivity.
  replace (Z.to_nat (0 - Z.min 0 (Z.of_nat (length (q :: qs))))%Z) with 0%nat
    by (simpl length; lia).
  cbn [firstn forallb]. simpl length. cbn [batch_loop_js js_lt]. split; reflexivity.
Qed.

Lemma concurrency_nan_runs_nothing_witness :
  main_loop_js (CONCURRENCY (Some (lit "auto")) None None) [lit "a"; lit "b"] (fun _ => Resolved)
  = ([[]], true) /\ CONCURRENCY (Some (lit "auto")) None None = NaN.
Proof.
  split; [vm_compute; reflexivity|].
  apply (concurrency_nan_runs_nothing (lit "auto") None None [lit "a"; lit "b"] (fun _ => Resolved));
    [discriminate | vm_compute; reflexivity].
Defined.

(** With a numeric ceiling [C] the entry point's loop on JavaScript
    numbers runs exactly the slices of [batch_loop] for [C] (which is at
    least 1), for any list of queries a JavaScript array can hold (fewer
    than [2^32]): [slice] past the end of the list gives the remaining
    queries, and an index [idx + C] that rounds ends the loop as the exact
    sum would. *)
Theorem entry_loop_numeric (conc b t : option text) (c : Z) (qs : list text)
    (run : text -> run_result) :
  CONCURRENCY conc b t = Fin c -> (Z.of_nat (length qs) < 2 ^ 32)%Z ->
  (1 <= c)%Z /\ main_loop_js (CONCURRENCY conc b t) qs run = main_loop (Z.to_nat c) qs run.
Proof.
  intros H Hlen. destruct (concurrency_fin conc b t c H) as [Hc Hr].
  split; [exact Hc|]. rewrite H. unfold main_loop_js, main_loop.
  change (Fin 0) with (Fin (Z.of_nat 0)).
  apply batch_loop_js_nat; assumption.
Qed.

Lemma entry_loop_numeric_witness :
  let qs := map lit ["a"; "b"; "c"; "d"; "e"; "f"; "g"]%string in
  CONCURRENCY (Some (lit "3")) None None = Fin 3 /\
  main_loop_js (CONCURRENCY (Some (lit "3")) None None) qs (fun _ => Resolved) =
  main_loop 3 qs (fun _ => Resolved).
Proof.
  intros qs. assert (H : CONCURRENCY (Some (lit "3")) None None = Fin 3) by (vm_compute; reflexivity).
  split; [exact H|].
  exact (proj2 (entry_loop_numeric _ _ _ 3%Z qs (fun _ => Resolved) H ltac:(vm_compute; reflexivity))).
Defined.

Lemma requests_app (a b : list sev) : requests (a ++ b) = requests a + requests b.
Proof. unfold requests. rewrite filter_app, length_app. reflexivity. Qed.

Lemma slept_app (a b : list sev) : slept (a ++ b) = slept a + slept b.
Proof. unfold slept, sleeps. rewrite flat_map_app, list_sum_app. reflexivity. Qed.

Lemma requests_cons (e : sev) (l : list sev) :
  requests (e :: l) = (if is_request e then 1 else 0) + requests l.
Proof. unfold requests. simpl. destruct (is_request e); reflexivity. Qed.

Lemma slept_cons (e : sev) (l : list sev) :
  slept (e :: l) = (match e with ESleep ms => ms | _ => 0 end) + slept l.
Proof. destruct e; reflexivity. Qed.

Lemma poll_bounds (n : nat) (id : jval) (fs : list fetch_result) :
  requests (fst (fst (poll n id fs))) <= n /\ slept (fst (fst (poll n id fs))) <= 2500 * n.
Proof.
  revert fs; induction n as [|n IH]; intros fs; [split; reflexivity|]. cbn [poll].
  destruct (next_fetch fs) as [f fs1].
  specialize (IH fs1). destruct (poll n id fs1) as [[e r] fs2]. cbn [fst] in IH.
  assert (Hc : forall w, requests w = 0 -> slept w <= 1000 ->
     requests ([ESleep 1500; EGet id] ++ w ++ e) <= S n /\
     slept ([ESleep 1500; EGet id] ++ w ++ e) <= 2500 * S n).
  { intros w Hr Hs. rewrite !requests_app, !slept_app. cbn. lia. }
  assert (Hpre : requests [ESleep 1500; EGet id] <= S n /\
                 slept [ESleep 1500; EGet id] <= 2500 * S n) by (cbn; lia).
  destruct f as [|res]; [apply Hc; reflexivity || (cbn; lia)|].
  destruct (negb (res_ok res)).
  - apply Hc; destruct (status res =? 429); cbn; lia.
  - destruct (truthy (j_token (data_of res))); [exact Hpre|].
    destruct (truthy (j_solution (data_of res))); [exact Hpre|].
    destruct (j_data (data_of res)) as [[[|c s]|b]|];
      try exact Hpre; apply Hc; cbn; lia.
Qed.

Lemma try_types_segments (ts : list text) (fs : list fetch_result) :
  exists segs : list (text * list sev),
    fst (try_types ts fs) =
      flat_map (fun ts => EPost (fst ts) (text_eqb (fst ts) recaptcha3) :: snd ts) segs /\
    Forall (fun ts => posted (snd ts) = [] /\ requests (snd ts) <= 20 /\
                      slept (snd ts) <= 50000) segs.
Proof.
  revert fs; induction ts as [|t ts IH]; intros fs; cbn [try_types];
    [exists []; split; [reflexivity|constructor]|].
  destruct (next_fetch fs) as [f fs1].
  assert (Hstep : forall fs' (pre : list sev), posted pre = [] -> requests pre <= 20 ->
            slept pre <= 50000 ->
            exists segs : list (text * list sev),
              EPost t (text_eqb t recaptcha3) :: pre ++ fst (try_types ts fs') =
                flat_map (fun ts => EPost (fst ts) (text_eqb (fst ts) recaptcha3) :: snd ts) segs /\
              Forall (fun ts => posted (snd ts) = [] /\ requests (snd ts) <= 20 /\
                                slept (snd ts) <= 50000) segs).
  { intros fs' pre Hp Hr Hs. destruct (IH fs') as (segs & E & F).
    exists ((t, pre) :: segs). split.
    - cbn [flat_map fst snd]. rewrite E. reflexivity.
    - constructor; [split; [exact Hp|split; assumption]|exact F]. }
  assert (H0 : requests [] <= 20 /\ slept [] <= 50000) by (split; apply Nat.le_0_l).
  destruct f as [|res].
  - destruct (Hstep fs1 [] eq_refl (proj1 H0) (proj2 H0)) as (segs & E & F).
    destruct (try_types ts fs1) as [e r]. exists segs. exact (conj E F).
  - destruct (negb (res_ok res)).
    + destruct ((status res =? 400) && invalid_type (body res)).
      * destruct (Hstep fs1 [] eq_refl (proj1 H0) (proj2 H0)) as (segs & E & F).
        destruct (try_types ts fs1) as [e r]. exists segs. exact (conj E F).
      * destruct (Hstep fs1 (if status res =? 429 then [ESleep 1000] else []))
          as (segs & E & F);
          [destruct (status res =? 429); reflexivity
          |destruct (status res =? 429); [change (requests [ESleep 1000]) with 0
          |change (requests []) with 0]; lia
          |destruct (status res =? 429); apply Nat.leb_le; vm_compute; reflexivity|].
        destruct (try_types ts fs1) as [e r]. exists segs. exact (conj E F).
    + destruct (truthy (j_token (data_of res))).
      { exists [(t, [])]. split; [reflexivity|constructor; [split; [reflexivity|exact H0]|constructor]]. }
      destruct (first_truthy _) as [id|].
      * pose proof (poll_bounds 20 id fs1) as [Pr Ps].
        pose proof (posted_poll 20 id fs1) as Pp.
        destruct (poll 20 id fs1) as [[e1 [tok|]] fs2]; cbn [fst] in Pr, Ps, Pp;
          assert (Hk : 2500 * 20 = 50000) by (apply Nat.eqb_eq; vm_compute; reflexivity);
          rewrite Hk in Ps; clear Hk.
        -- exists [(t, e1)]. cbn [fst flat_map]. rewrite app_nil_r.
           split; [reflexivity|constructor; [split; [exact Pp|split; assumption]|constructor]].
        -- destruct (Hstep fs2 e1 Pp Pr Ps) as (segs & E & F).
           destruct (try_types ts fs2) as [e r]. exists segs. exact (conj E F).
      * destruct (Hstep fs1 [] eq_refl (proj1 H0) (proj2 H0)) as (segs & E & F).
        destruct (try_types ts fs1) as [e r]. exists segs. exact (conj E F).
Qed.

Lemma segments_totals (segs : list (text * list sev)) :
  Forall (fun ts => posted (snd ts) = [] /\ requests (snd ts) <= 20 /\
                    slept (snd ts) <= 50000) segs ->
  let evs := flat_map (fun ts => EPost (fst ts) (text_eqb (fst ts) recaptcha3) :: snd ts) segs in
  posted evs = map fst segs /\ requests evs <= 21 * length segs /\ slept evs <= 50000 * length segs.
Proof.
  intros F. induction F as [|[t e] segs [Hp [Hr Hs]] F IH]; cbv zeta in *.
  - split; [reflexivity|split; apply Nat.le_0_l].
  - destruct IH as (P & R & S). cbn [flat_map fst snd map length] in *.
    rewrite <- app_comm_cons, requests_cons, slept_cons, requests_app, slept_app.
    cbn [is_request]. rewrite !Nat.mul_succ_r.
    split; [|lia]. change (EPost t (text_eqb t recaptcha3) :: e ++ ?r)
      with ([EPost t (text_eqb t recaptcha3)] ++ e ++ r).
    rewrite !posted_app, Hp, P. reflexivity.
Qed.

Lemma fold_push_length (l acc : list text) :
  length (fold_left (fun acc t => if mem t acc then acc else acc ++ [t]) l acc)
  <= length acc + length l.
Proof.
  revert acc. induction l as [|t l IH]; intros acc; simpl; [lia|].
  destruct (mem t acc);
    [specialize (IH acc) | specialize (IH (acc ++ [t])); rewrite length_app in IH; simpl in IH];
    lia.
Qed.

(** [solveRecaptchaToken] tries at most 4 challenge types.  Its trace
    is one segment per type tried, in order: the POST for that type, then
    at most 20 further requests (the polls) and at most 50 s of sleep.  So
    per type tried it makes at most 21 requests and sleeps at most 50 s. *)
Theorem solver_request_bounds (apiKey : text) (typeHint : option text) (fs : list fetch_result) :
  let evs := fst (solveRecaptchaToken apiKey typeHint fs) in
  length (posted evs) <= length (solver_types typeHint) <= 4 /\
  (exists segs : list (text * list sev),
     evs = flat_map (fun ts => EPost (fst ts) (text_eqb (fst ts) recaptcha3) :: snd ts) segs /\
     map fst segs = posted evs /\
     Forall (fun ts => posted (snd ts) = [] /\ requests (snd ts) <= 20 /\
                       slept (snd ts) <= 50000) segs) /\
  requests evs <= 21 * length (posted evs) /\ slept evs <= 50000 * length (posted evs).
Proof.
  intros evs.
  assert (Hn : length (solver_types typeHint) <= 4).
  { unfold solver_types. etransitivity; [apply fold_push_length|].
    destruct typeHint as [[|c h]|]; simpl; lia. }
  assert (Hseg : exists segs : list (text * list sev),
     evs = flat_map (fun ts => EPost (fst ts) (text_eqb (fst ts) recaptcha3) :: snd ts) segs /\
     Forall (fun ts => posted (snd ts) = [] /\ requests (snd ts) <= 20 /\
                       slept (snd ts) <= 50000) segs).
  { unfold evs, solveRecaptchaToken. destruct apiKey as [|c k].
    - exists []. split; [reflexivity|constructor].
    - apply try_types_segments. }
  assert (Hpre : length (posted evs) <= length (solver_types typeHint)).
  { unfold evs, solveRecaptchaToken. destruct apiKey as [|c k]; [apply Nat.le_0_l|].
    destruct (try_types_posted_prefix (solver_types typeHint) fs) as [rest Hr].
    rewrite Hr at 2. rewrite length_app. lia. }
  destruct Hseg as (segs & E & F).
  destruct (segments_totals segs F) as (P & R & S). cbv zeta in P, R, S.
  rewrite <- E in P, R, S.
  assert (Hl : length (posted evs) = length segs) by (rewrite P, length_map; reflexivity).
  split; [split; [exact Hpre|lia]|].
  split; [exists segs; split; [exact E|split; [symmetry; exact P|exact F]]|].
  rewrite Hl. split; assumption.
Qed.

Lemma after_detect_fresh_batches (q : text) (st : sess) (o : iter_obs) :
  length (appended (fst (after_detect q st o))) <= 1 /\
  Forall (fresh_batch (s_collected st)) (appended (fst (after_detect q st o))) /\
  match snd (after_detect q st o) with
  | Continue st' => incl (s_collected st) (s_collected st') /\
      Forall (stored_batch (s_collected st')) (appended (fst (after_detect q st o)))
  | Stop _ => True
  end.
Proof.
  unfold after_detect. cbv zeta.
  destruct (present (o_captcha o) && solved (o_captcha o) && negb (o_wait_ok o)).
  { cbn. split; [lia|split; [constructor|exact I]]. }
  remember (extractEmailsFromPage (o_body o)) as emails eqn:He.
  remember (filter (fun e => negb (mem e (s_collected st))) emails) as ne eqn:Hne.
  destruct (fold_set_add ne (s_collected st)) as [Hinc Hin].
  remember (fold_left (fun acc e => set_add e acc) ne (s_collected st)) as C' eqn:HC.
  remember (mk_rows q (o_clock o) 0 ne) as rows eqn:Hrw.
  assert (Hf : fresh_batch (s_collected st) rows /\ stored_batch C' rows).
  { split; intros r Hr; destruct (mk_rows_emails q (o_clock o) 0 ne) as [Hm _];
      assert (Hr' : In (r_email r) ne) by (rewrite <- Hm, <- Hrw; apply in_map, Hr).
    - rewrite Hne in Hr'. apply filter_In in Hr' as [_ Hf].
      apply negb_true_iff in Hf. apply mem_false, Hf.
    - apply Hin, Hr'. }
  destruct Hf as [Hf1 Hf2].
  assert (Hh : forall X (tl : list event),
    appended (X ++ EvExtract emails (s_collected st) ::
      (match ne with [] => [] | _ => [EvAppend rows C'; EvSave rows] end) ++ tl)
    = appended X ++ (match ne with [] => [] | _ => [rows] end) ++ appended tl).
  { intros X tl. rewrite appended_app. f_equal. cbn [appended flat_map app].
    destruct ne; reflexivity. }
  destruct (o_has_next o); cbn [fst snd].
  - rewrite Hh. assert (Hx : forall b : bool, appended (if b then [EvRecover] else []) = [])
      by (intros []; reflexivity).
    rewrite Hx. cbn [appended flat_map app]. rewrite app_nil_r.
    destruct ne; cbn [length s_collected]; repeat split; repeat constructor; try lia;
      assumption.
  - rewrite <- (app_nil_r (match ne with [] => [] | _ => _ end)). rewrite Hh.
    assert (Hx : forall b : bool, appended (if b then [EvRecover] else []) = [])
      by (intros []; reflexivity).
    rewrite Hx. cbn [appended flat_map app]. rewrite app_nil_r.
    destruct ne; cbn [length]; repeat split; repeat constructor; try lia; assumption.
Qed.

Lemma iter_step_fresh_batches (q : text) (st : sess) (o : iter_obs) :
  length (appended (fst (iter_step q st o))) <= 1 /\
  Forall (fresh_batch (s_collected st)) (appended (fst (iter_step q st o))) /\
  match snd (iter_step q st o) with
  | Continue st' => incl (s_collected st) (s_collected st') /\
      Forall (stored_batch (s_collected st')) (appended (fst (iter_step q st o)))
  | Stop _ => True
  end.
Proof.
  rewrite iter_step_unfold. cbn [fst snd].
  change (appended (EvDetect (s_page st) :: ?l)) with (appended l).
  destruct (unresolved o); [destruct (3 <=? S (s_consec st))|].
  - cbn. split; [lia|split; [constructor|exact I]].
  - exact (after_detect_fresh_batches q _ o).
  - exact (after_detect_fresh_batches q _ o).
Qed.

(** Along a query session, the batches handed to [appendToCSV] never share
    an identity: an address written for one page is never written again
    for a later page, and none of them was already in [collected] when the
    loop started. *)
Theorem session_batches_disjoint (q : text) (st : sess) (os : list iter_obs) :
  ForallOrdPairs (fun b1 b2 => forall r1 r2, In r1 b1 -> In r2 b2 -> r_email r1 <> r_email r2)
    (appended (fst (session_loop q st os))) /\
  Forall (fresh_batch (s_collected st)) (appended (fst (session_loop q st os))).
Proof.
  revert st; induction os as [|o os IH]; intros st; cbn [session_loop].
  - split; constructor.
  - destruct (iter_step_fresh_batches q st o) as [L [F C]].
    destruct (iter_step q st o) as [e1 [st'|why]]; cbn [fst snd] in *.
    + destruct C as [Inc Sto].
      destruct (IH st') as [P' F'].
      destruct (session_loop q st' os) as [e2 f]. cbn [fst] in *.
      rewrite appended_app. split.
      * apply ForallOrdPairs_app; [|exact P'|].
        { destruct (appended e1) as [|b [|b' bs]]; cbn in L; [constructor|repeat constructor|lia]. }
        intros b1 b2 Hb1 Hb2 r1 r2 Hr1 Hr2 Heq.
        rewrite Forall_forall in Sto, F'.
        apply (F' b2 Hb2 r2 Hr2). rewrite <- Heq. exact (Sto b1 Hb1 r1 Hr1).
      * apply Forall_app. split; [exact F|].
        eapply Forall_impl; [|exact F']. intros b Hb r Hr Hin. exact (Hb r Hr (Inc _ Hin)).
    + split; [|exact F].
      destruct (appended e1) as [|b [|b' bs]]; cbn in L; [constructor|repeat constructor|lia].
Qed.

Lemma after_detect_batch_emails (q : text) (st : sess) (o : iter_obs) (b : list row) :
  appended (fst (after_detect q st o)) = [b] ->
  map r_email b = filter (fun e => negb (mem e (s_collected st))) (extractEmailsFromPage (o_body o)).
Proof.
  unfold after_detect. cbv zeta.
  destruct (present (o_captcha o) && solved (o_captcha o) && negb (o_wait_ok o)).
  { cbn. discriminate. }
  assert (Hx : forall c : bool, appended (if c then [EvRecover] else []) = [])
    by (intros []; reflexivity).
  destruct (filter (fun e => negb (mem e (s_collected st))) (extractEmailsFromPage (o_body o)))
    as [|x xs] eqn:Hne;
  destruct (o_has_next o); cbn [fst]; rewrite appended_app, Hx; cbn;
    try discriminate; intros H; injection H as <-;
    exact (proj1 (mk_rows_emails q (o_clock o) 0 (x :: xs))).
Qed.

(** In an iteration that calls [appendToCSV], the batch holds exactly the
    addresses returned by the extractor for the page that were not yet in
    [collected], in page order: [newEmails] is not de-duplicated, so a new
    address that the page lists twice is written twice. *)
Theorem iteration_batch_emails (q : text) (st : sess) (o : iter_obs) (b : list row) :
  appended (fst (iter_step q st o)) = [b] ->
  map r_email b = filter (fun e => negb (mem e (s_collected st))) (extractEmailsFromPage (o_body o)).
Proof.
  rewrite iter_step_unfold. cbn [fst].
  change (appended (EvDetect (s_page st) :: ?l)) with (appended l).
  destruct (unresolved o); [destruct (3 <=? S (s_consec st))|].
  - cbn. discriminate.
  - exact (after_detect_batch_emails q _ o b).
  - exact (after_detect_batch_emails q _ o b).
Qed.

Lemma iteration_batch_emails_witness :
  let o := mk_obs false false true (Some (lit "Info@Plumb.io or info@plumb.io")) true in
  let b := mk_rows query0 sample_clock 0 [lit "info@plumb.io"; lit "info@plumb.io"] in
  appended (fst (iter_step query0 session_init o)) = [b] /\
  map r_email b = filter (fun e => negb (mem e (s_collected session_init)))
                    (extractEmailsFromPage (o_body o)) /\
  map r_email b = [lit "info@plumb.io"; lit "info@plumb.io"].
Proof.
  intros o b.
  assert (H : appended (fst (iter_step query0 session_init o)) = [b]) by (vm_compute; reflexivity).
  split; [exact H|]. split; [exact (iteration_batch_emails query0 session_init o b H)|].
  vm_compute. reflexivity.
Defined.

Lemma try_consent_true (sels : list text) (page : text -> consent_probe) :
  snd (try_consent sels page) = true <->
  exists sel ck u, In sel sels /\ page sel = CFound ck true u /\ matches_consent u = false.
Proof.
  induction sels as [|sel rest IH]; cbn [try_consent].
  - split; [discriminate|]. intros (sel & ck & u & [] & _).
  - assert (Hn : forall evs : list cev,
              snd (let '(e, r) := try_consent rest page in (evs ++ e, r)) = snd (try_consent rest page))
      by (intros evs; destruct (try_consent rest page); reflexivity).
    assert (Hr : snd (try_consent rest page) = true ->
                 exists sel' ck u, In sel' (sel :: rest) /\ page sel' = CFound ck true u /\
                                   matches_consent u = false)
      by (intros H; apply IH in H as (s' & ck & u & Hi & Hp & Hm);
          exists s', ck, u; split; [right; exact Hi|split; assumption]).
    assert (Hl : forall ck w u, page sel = CFound ck w u -> (w = false \/ matches_consent u = true) ->
               (exists sel' ck' u', In sel' (sel :: rest) /\ page sel' = CFound ck' true u' /\
                                    matches_consent u' = false) ->
               snd (try_consent rest page) = true).
    { intros ck w u Hp Hwm (s' & ck' & u' & [<-|Hi] & Hp' & Hm').
      - rewrite Hp in Hp'. injection Hp' as E1 E2 E3. subst. destruct Hwm; congruence.
      - apply IH. exists s', ck', u'. auto. }
    destruct (page sel) as [| |ck w u] eqn:Hp.
    + rewrite Hn. split; [exact Hr|].
      intros (s' & ck & u & [<-|Hi] & Hp' & Hm); [congruence|].
      apply IH. exists s', ck, u. auto.
    + rewrite Hn. split; [exact Hr|].
      intros (s' & ck & u & [<-|Hi] & Hp' & Hm); [congruence|].
      apply IH. exists s', ck, u. auto.
    + destruct w; cbn [negb].
      * destruct (matches_consent u) eqn:Hm; cbn [negb].
        -- rewrite Hn. split; [exact Hr|]. apply (Hl ck true u eq_refl). right; exact Hm.
        -- split; [intros _; exists sel, ck, u; split; [left; reflexivity|auto]|reflexivity].
      * rewrite Hn. split; [exact Hr|]. apply (Hl ck false u eq_refl). left; reflexivity.
Qed.

(** [tryAcceptConsent] returns [true] exactly when, for one of its four
    locators, an element is found, the one-second wait after the click
    resolves and the page URL no longer matches [/consent/i]; whether the
    click itself succeeded is not checked. *)
Theorem tryAcceptConsent_result (page : text -> consent_probe) :
  snd (tryAcceptConsent page) = true <->
  exists sel ck u, In sel consent_locators /\ page sel = CFound ck true u /\
                   matches_consent u = false.
Proof. apply try_consent_true. Qed.

Lemma try_next_true (sels : list text) (page : text -> next_probe) :
  snd (try_next sels page) = true <->
  exists sel ck, In sel sels /\ page sel = NFound true true ck true.
Proof.
  induction sels as [|sel rest IH]; cbn [try_next].
  - split; [discriminate|]. intros (sel & ck & [] & _).
  - assert (Hn : forall evs : list nev,
              snd (let '(e, r) := try_next rest page in (evs ++ e, r)) = snd (try_next rest page))
      by (intros evs; destruct (try_next rest page); reflexivity).
    assert (Hr : snd (try_next rest page) = true ->
                 exists sel' ck, In sel' (sel :: rest) /\ page sel' = NFound true true ck true)
      by (intros H; apply IH in H as (s' & ck & Hi & Hp); exists s', ck; split; [right|]; assumption).
    assert (Hl : page sel <> NFound true true true true -> page sel <> NFound true true false true ->
               (exists sel' ck, In sel' (sel :: rest) /\ page sel' = NFound true true ck true) ->
               snd (try_next rest page) = true).
    { intros H1 H2 (s' & ck & [<-|Hi] & Hp').
      - destruct ck; contradiction.
      - apply IH. exists s', ck. auto. }
    destruct (page sel) as [| |sc w1 ck w2] eqn:Hp.
    + rewrite Hn. split; [exact Hr|]. apply Hl; discriminate.
    + rewrite Hn. split; [exact Hr|]. apply Hl; discriminate.
    + destruct sc, w1; cbn [negb]; try (rewrite Hn; split; [exact Hr|]; apply Hl; discriminate).
      destruct w2.
      * split; [intros _; exists sel, ck; split; [left; reflexivity|exact Hp]|reflexivity].
      * rewrite Hn. split; [exact Hr|]. apply Hl; discriminate.
Qed.

(** [goToNextPage] returns [true] exactly when, for one of its four
    selectors, an element is found and the scroll and the two fixed waits
    resolve; the click may have failed (its errors, and those of the wait
    for [div#search], are swallowed), so [true] does not mean the next
    page was reached. *)
Theorem goToNextPage_result (page : text -> next_probe) :
  snd (goToNextPage page) = true <->
  exists sel ck, In sel next_selectors /\ page sel = NFound true true ck true.
Proof. apply try_next_true. Qed.

(** [maybeHandleCaptcha] reports a challenge solved only together with
    [present], and only in three cases: a consent page whose consent was
    accepted, a sitekey was found and the helper's [solveRecaptchaV2]
    resolved, or a sitekey was found and the solving service returned a
    truthy token that was injected. *)
Theorem maybeHandleCaptcha_solved (apiKey : text) (env : captcha_env) :
  solved (maybeHandleCaptcha apiKey env) = true ->
  present (maybeHandleCaptcha apiKey env) = true /\
  ((matches_consent (h_url env) = true /\ snd (tryAcceptConsent (h_consent env)) = true) \/
   (h_sitekey env <> [] /\
    (h_helper env = Some true \/
     (truthy (snd (solveRecaptchaToken apiKey (type_hint env) (h_fetch env))) = true /\
      h_inject_ok env = true /\ h_wait600_ok env = true)))).
Proof.
  unfold maybeHandleCaptcha.
  destruct (matches_consent (h_url env) && snd (tryAcceptConsent (h_consent env))) eqn:Hc.
  { intros _. split; [reflexivity|]. left. apply andb_true_iff, Hc. }
  destruct (captcha_detected env) as [[]|]; cbn; try discriminate.
  destruct (h_sitekey env) as [|c k] eqn:Hk.
  { destruct (h_extension env), (h_ext_wait_ok env); cbn; discriminate. }
  destruct (h_helper env) as [[]|] eqn:Hh.
  - intros _. split; [reflexivity|]. right. split; [discriminate|]. left; reflexivity.
  - destruct (truthy _) eqn:Ht; [|discriminate].
    destruct (h_inject_ok env) eqn:Hi, (h_wait600_ok env) eqn:Hw; cbn; try discriminate.
    intros _. split; [reflexivity|]. right. split; [discriminate|]. right; auto.
  - destruct (truthy _) eqn:Ht; [|discriminate].
    destruct (h_inject_ok env) eqn:Hi, (h_wait600_ok env) eqn:Hw; cbn; try discriminate.
    intros _. split; [reflexivity|]. right. split; [discriminate|]. right; auto.
Qed.

(** Without [NOPECHA_API_KEY] and without a working helper, the only
    challenge [maybeHandleCaptcha] reports solved is a consent page whose
    consent [tryAcceptConsent] accepted. *)
Theorem maybeHandleCaptcha_without_key (env : captcha_env) :
  h_helper env <> Some true ->
  solved (maybeHandleCaptcha [] env) =
  matches_consent (h_url env) && snd (tryAcceptConsent (h_consent env)).
Proof.
  intros Hh. unfold maybeHandleCaptcha.
  destruct (matches_consent (h_url env) && snd (tryAcceptConsent (h_consent env))); [reflexivity|].
  destruct (captcha_detected env) as [[]|]; try reflexivity.
  destruct (h_sitekey env) as [|c k].
  { destruct (h_extension env), (h_ext_wait_ok env); reflexivity. }
  destruct (h_helper env) as [[]|]; [congruence| |]; reflexivity.
Qed.

Lemma maybeHandleCaptcha_without_key_witness :
  let env := {| h_url := lit "https://www.google.com/sorry/index?continue=x";
                h_consent := fun _ => CNone; h_widget := Some false; h_iframe := Some false;
                h_sitekey := lit "6Lc-sitekey"; h_extension := false; h_ext_wait_ok := true;
                h_helper := None; h_has_exec := Some false; h_g_widget := Some true;
                h_fetch := []; h_inject_ok := true; h_wait600_ok := true |} in
  h_helper env <> Some true /\
  solved (maybeHandleCaptcha [] env) = false /\ present (maybeHandleCaptcha [] env) = true.
Proof.
  intros env. assert (H : h_helper env <> Some true) by discriminate.
  split; [exact H|]. split.
  - rewrite (maybeHandleCaptcha_without_key env H). vm_compute. reflexivity.
  - vm_compute. reflexivity.
Defined.

Lemma maybeHandleCaptcha_solved_witness :
  let tok := {| status := 200; body := lit "{}";
                json := Some {| j_token := Some (JStr (lit "03AFcW")); j_id := None;
                                j_data := None; j_task := None; j_solution := None |} |} in
  let env := {| h_url := lit "https://www.google.com/sorry/index?continue=x";
                h_consent := fun _ => CNone; h_widget := Some false; h_iframe := Some false;
                h_sitekey := lit "6Lc-sitekey"; h_extension := false; h_ext_wait_ok := true;
                h_helper := None; h_has_exec := Some false; h_g_widget := Some true;
                h_fetch := [FetchResp tok]; h_inject_ok := true; h_wait600_ok := true |} in
  solved (maybeHandleCaptcha (lit "key") env) = true /\
  present (maybeHandleCaptcha (lit "key") env) = true /\
  truthy (snd (solveRecaptchaToken (lit "key") (type_hint env) (h_fetch env))) = true.
Proof.
  intros tok env.
  assert (H : solved (maybeHandleCaptcha (lit "key") env) = true) by (vm_compute; reflexivity).
  split; [exact H|].
  split; [exact (proj1 (maybeHandleCaptcha_solved (lit "key") env H))|].
  vm_compute. reflexivity.
Defined.
